(** * libkern.c: everything that touches the kernel

    A shallow embedding of [src/lib/libkern.c] (ios-kern-utils) and the
    properties of its five entry points:
    [get_kernel_task], [get_kernel_base], [read_kernel], [write_kernel]
    and [find_bytes_kern].

    Conventions.
    - [vm_address_t], [vm_size_t] and [size_t] are unsigned machine words
      of [wordbits] bits; they are modelled as [Z] and every C operation
      on them is followed by its wrap-around ([wrap]).
    - The two [static] variables of [get_kernel_task] and the two of
      [get_kernel_base] live in the record [world], which is threaded
      through every function, together with the [trace] of the calls
      made to the outside (Mach traps, libc allocation).
    - The outside is an oracle ([env]): every collaborator answers as a
      function of its arguments and of the history of calls so far, so a
      kernel whose memory changes between calls is covered.
    - The unbounded loops take a fuel argument that bounds the number of
      times the loop goes round again; [None] means out of fuel.
    - [DEBUG] output (debug.h) is not modelled. *)

From Stdlib Require Import ZArith List Bool Lia.
From Stdlib.Strings Require Import Byte.
Import ListNotations.
Local Open Scope Z_scope.

(** ** Constants of the system headers *)

Definition kern_return_t := Z.
Definition KERN_SUCCESS : kern_return_t := 0.
Definition KERN_INVALID_ARGUMENT : kern_return_t := 4.
Definition KERN_FAILURE : kern_return_t := 5.
Definition KERN_NO_ACCESS : kern_return_t := 8.

Definition MACH_PORT_NULL : Z := 0.
Definition MACH_PORT_DEAD : Z := 0xFFFFFFFF.
Definition MACH_PORT_VALID (name : Z) : bool :=
  negb (name =? MACH_PORT_NULL) && negb (name =? MACH_PORT_DEAD).

Definition HOST_LOCAL_NODE : Z := -1.
Definition VM_PROT_READ : Z := 1.
Definition VM_PROT_WRITE : Z := 2.
Definition VM_PROT_EXECUTE : Z := 4.
Definition VM_REGION_SUBMAP_INFO_COUNT_64 : Z := 19.
Definition MH_EXECUTE : Z := 2.

Definition MAX_CHUNK_SIZE : Z := 0xFFF.

(** ** What arch.h and the C library decide

    arch.h is not part of the sources at hand, so the word size, the image
    offset, the expected magic and CPU type, and the layout of
    [mach_hdr_t] are parameters.  [IMAGE_OFFSET] is taken to be a small
    [int] constant, so that [2 * IMAGE_OFFSET] is computed without overflow
    before it is added to an address.  [memmem_empty] says what the
    platform's [memmem] answers for a needle of length 0: [true] when it
    returns the haystack, [false] when it returns [NULL]. *)

Record arch : Type := {
  wordbits : positive;
  IMAGE_OFFSET : Z;
  MACH_HEADER_MAGIC : Z;
  MACH_TYPE : Z;
  sizeof_mach_hdr : Z;
  hdr_magic : list byte -> Z;
  hdr_cputype : list byte -> Z;
  hdr_filetype : list byte -> Z;
  memmem_empty : bool
}.

(** Little-endian 32-bit field at byte offset [off], for concrete layouts. *)
Definition le32 (off : nat) (l : list byte) : Z :=
  let b i := Z.of_N (Byte.to_N (nth (off + i) l x00)) in
  b 0%nat + Z.shiftl (b 1%nat) 8 + Z.shiftl (b 2%nat) 16 + Z.shiftl (b 3%nat) 24.


Definition arm64 : arch := {|
  wordbits := 64; IMAGE_OFFSET := 0x2000;
  MACH_HEADER_MAGIC := 0xfeedfacf; MACH_TYPE := 0x0100000c;
  sizeof_mach_hdr := 32;
  hdr_magic := le32 0; hdr_cputype := le32 4; hdr_filetype := le32 12;
  memmem_empty := false |}.

(** ** Calls to the outside and their answers *)

Inductive event : Type :=
| EvTaskForPid (pid : Z) (port : Z) (ret : kern_return_t)
| EvHostGetSpecialPort (node which : Z) (port : Z) (ret : kern_return_t)
| EvRegion (task addr : Z) (ret : kern_return_t) (found size : Z)
| EvRead (task addr size : Z) (ret : kern_return_t) (outsize : Z)
| EvWrite (task addr size : Z) (ret : kern_return_t)
| EvMalloc (size : Z) (ok : bool)
| EvFree.

Record port_reply : Type := { pr_ret : kern_return_t; pr_port : Z }.

Record region_reply : Type := {
  rr_ret : kern_return_t;
  rr_addr : Z;          (* address, in/out *)
  rr_size : Z;          (* size, out *)
  rr_depth : Z;         (* nesting depth, in/out *)
  rr_protection : Z;    (* info.protection *)
  rr_count : Z          (* info count, in/out *)
}.

Record read_reply : Type := {
  ro_ret : kern_return_t;
  ro_data : list byte;  (* what was stored at the destination *)
  ro_size : Z           (* the out-size *)
}.

Record env : Type := {
  task_for_pid : list event -> Z -> port_reply;
  host_get_special_port : list event -> Z -> Z -> port_reply;
  vm_region_recurse_64 : list event -> Z -> Z -> Z -> Z -> region_reply;
  vm_read_overwrite : list event -> Z -> Z -> Z -> read_reply;
  vm_write : list event -> Z -> Z -> list byte -> Z -> kern_return_t;
  malloc : list event -> Z -> bool;
  (* contents of storage that was never written: malloc, locals *)
  uninit : list event -> nat -> byte
}.

(** ** The process-wide state *)

Record world : Type := {
  kernel_task : Z;            (* static task_t kernel_task *)
  task_initialized : bool;    (* static char initialized, get_kernel_task *)
  kbase_addr : Z;             (* static vm_address_t addr *)
  kbase_initialized : bool;   (* static char initialized, get_kernel_base *)
  trace : list event
}.

Definition fresh_world : world := {|
  kernel_task := MACH_PORT_NULL; task_initialized := false;
  kbase_addr := 0; kbase_initialized := false; trace := [] |}.

Definition log (e : event) (w : world) : world := {|
  kernel_task := kernel_task w; task_initialized := task_initialized w;
  kbase_addr := kbase_addr w; kbase_initialized := kbase_initialized w;
  trace := trace w ++ [e] |}.

Definition set_kernel_task (p : Z) (w : world) : world := {|
  kernel_task := p; task_initialized := task_initialized w;
  kbase_addr := kbase_addr w; kbase_initialized := kbase_initialized w;
  trace := trace w |}.

Definition set_task_initialized (w : world) : world := {|
  kernel_task := kernel_task w; task_initialized := true;
  kbase_addr := kbase_addr w; kbase_initialized := kbase_initialized w;
  trace := trace w |}.

Definition set_addr (a : Z) (w : world) : world := {|
  kernel_task := kernel_task w; task_initialized := task_initialized w;
  kbase_addr := a; kbase_initialized := kbase_initialized w;
  trace := trace w |}.

Definition set_kbase_initialized (w : world) : world := {|
  kernel_task := kernel_task w; task_initialized := task_initialized w;
  kbase_addr := kbase_addr w; kbase_initialized := true;
  trace := trace w |}.

(** ** Buffers *)

(** [store buf off data]: [data] copied over [buf] from offset [off] on,
    cut at the end of [buf] (C would write past the end). *)
Definition store (buf : list byte) (off : nat) (data : list byte) : list byte :=
  firstn off buf
  ++ firstn (length buf - off) data
  ++ skipn (off + length data) buf.

(** [n] bytes of storage that was never written, from offset [base] of
    what the environment leaves lying around. *)
Definition fresh_bytes (E : env) (h : list event) (base : nat) (n : Z)
  : list byte :=
  map (uninit E h) (seq base (Z.to_nat n)).

(** ** A simulated kernel, for concrete runs

    A fixed list of regions in ascending order, a fixed memory, fixed
    answers of the two ways to the kernel task.  The answers do not depend
    on the history. *)

Record sim : Type := {
  sim_pid0 : port_reply;               (* task_for_pid(0) *)
  sim_special : port_reply;            (* host_get_special_port(4) *)
  sim_regions : list (Z * Z * Z);      (* start, size, protection *)
  sim_mem : Z -> option byte;          (* the readable and writable bytes *)
  sim_malloc : bool;
  sim_stale : nat -> byte
}.

Definition KERN_INVALID_ADDRESS : kern_return_t := 1.

Fixpoint sim_region (rs : list (Z * Z * Z)) (addr depth count : Z)
  : region_reply :=
  match rs with
  | [] => {| rr_ret := KERN_INVALID_ADDRESS; rr_addr := addr; rr_size := 0;
             rr_depth := depth; rr_protection := 0; rr_count := count |}
  | (start, size, prot) :: rs' =>
      if addr <? start + size
      then {| rr_ret := KERN_SUCCESS; rr_addr := start; rr_size := size;
              rr_depth := depth; rr_protection := prot; rr_count := count |}
      else sim_region rs' addr depth count
  end.

Fixpoint sim_bytes (mem : Z -> option byte) (a : Z) (n : nat)
  : option (list byte) :=
  match n with
  | O => Some []
  | S n' =>
      match mem a, sim_bytes mem (a + 1) n' with
      | Some b, Some l => Some (b :: l)
      | _, _ => None
      end
  end.

Definition sim_read (mem : Z -> option byte) (a size : Z) : read_reply :=
  match sim_bytes mem a (Z.to_nat size) with
  | Some d => {| ro_ret := KERN_SUCCESS; ro_data := d; ro_size := size |}
  | None => {| ro_ret := KERN_INVALID_ADDRESS; ro_data := []; ro_size := size |}
  end.

Definition sim_write (mem : Z -> option byte) (a size : Z) : kern_return_t :=
  match sim_bytes mem a (Z.to_nat size) with
  | Some _ => KERN_SUCCESS
  | None => KERN_INVALID_ADDRESS
  end.

Definition sim_env (k : sim) : env := {|
  task_for_pid := fun _ _ => sim_pid0 k;
  host_get_special_port := fun _ _ _ => sim_special k;
  vm_region_recurse_64 := fun _ _ addr depth count =>
    sim_region (sim_regions k) addr depth count;
  vm_read_overwrite := fun _ _ a size => sim_read (sim_mem k) a size;
  vm_write := fun _ _ a _ size => sim_write (sim_mem k) a size;
  malloc := fun _ _ => sim_malloc k;
  uninit := fun _ => sim_stale k
|}.

(** Memory made of segments: [bytes] at [base], else what [rest] holds. *)
Definition seg (base : Z) (bytes : list byte) (rest : Z -> option byte)
  : Z -> option byte :=
  fun a =>
    if (base <=? a) && (a <? base + Z.of_nat (length bytes))
    then nth_error bytes (Z.to_nat (a - base))
    else rest a.

(** [n] bytes, all [b], at [base]. *)
Definition fill (base n : Z) (b : byte) (rest : Z -> option byte)
  : Z -> option byte :=
  fun a => if (base <=? a) && (a <? base + n) then Some b else rest a.

Definition unmapped : Z -> option byte := fun _ => None.

(** *** Sample kernels

    A 64-bit kernel mapped at [kbase64] behind a small region of user
    memory; 2 MiB of zeroes are readable there, with a Mach-O header laid
    over them where the sample says. *)

Definition kbase64 : Z := 0xffffff8000000000.
Definition macho64 : list byte :=
  [xcf; xfa; xed; xfe; x0c; x00; x00; x01; x00; x00; x00; x00;
   x02; x00; x00; x00; x00; x00; x00; x00; x00; x00; x00; x00;
   x00; x00; x00; x00; x00; x00; x00; x00].
Definition granted : port_reply :=
  {| pr_ret := KERN_SUCCESS; pr_port := 0x1203 |}.
Definition denied : port_reply :=
  {| pr_ret := KERN_FAILURE; pr_port := MACH_PORT_NULL |}.
Definition two_regions : list (Z * Z * Z) :=
  [(0x1000, 0x4000, 5); (kbase64, 0x80000000, 0)].
Definition zeros : Z -> option byte := fill kbase64 0x200000 x00 unmapped.
Definition stale (i : nat) : byte := nth i [x00; xde; xad; xbe; xef] x00.

Definition sim_second : sim := {|
  sim_pid0 := granted; sim_special := denied; sim_regions := two_regions;
  sim_mem := seg (kbase64 + 0x4000) macho64 zeros;
  sim_malloc := true; sim_stale := stale |}.
Definition sim_both : sim := {|
  sim_pid0 := granted; sim_special := denied; sim_regions := two_regions;
  sim_mem := seg (kbase64 + 0x2000) macho64
               (seg (kbase64 + 0x4000) macho64 zeros);
  sim_malloc := true; sim_stale := stale |}.
Definition sim_stride : sim := {|
  sim_pid0 := granted; sim_special := denied; sim_regions := two_regions;
  sim_mem := seg (kbase64 + 0x100000 + 0x4000) macho64 zeros;
  sim_malloc := true; sim_stale := stale |}.
Definition sim_all : sim := {|
  sim_pid0 := granted; sim_special := denied; sim_regions := two_regions;
  sim_mem := fun _ => Some x00;
  sim_malloc := true; sim_stale := stale |}.
Definition sim_denied : sim := {|
  sim_pid0 := denied; sim_special := denied; sim_regions := two_regions;
  sim_mem := zeros;
  sim_malloc := true; sim_stale := stale |}.

(** Further samples: a kernel reached only through the special port, one
    without the large region, one whose large region cannot be read, one
    readable only at the first offset, one with a dylib header at the first
    offset and the kernel's at the second, and one whose memory is zero but
    for two marked bytes. *)
Definition sim_fallback : sim := {|
  sim_pid0 := denied;
  sim_special := {| pr_ret := KERN_FAILURE; pr_port := 0x0e03 |};
  sim_regions := two_regions;
  sim_mem := seg (kbase64 + 0x4000) macho64 zeros;
  sim_malloc := true; sim_stale := stale |}.
Definition sim_nomatch : sim := {|
  sim_pid0 := granted; sim_special := denied;
  sim_regions := [(0x1000, 0x4000, 5)];
  sim_mem := zeros;
  sim_malloc := true; sim_stale := stale |}.
Definition sim_unreadable : sim := {|
  sim_pid0 := granted; sim_special := denied; sim_regions := two_regions;
  sim_mem := unmapped;
  sim_malloc := true; sim_stale := stale |}.
Definition sim_first_only : sim := {|
  sim_pid0 := granted; sim_special := denied; sim_regions := two_regions;
  sim_mem := seg (kbase64 + 0x2000) macho64 unmapped;
  sim_malloc := true; sim_stale := stale |}.
Definition dylib64 : list byte :=
  [xcf; xfa; xed; xfe; x0c; x00; x00; x01; x00; x00; x00; x00;
   x06; x00; x00; x00; x00; x00; x00; x00; x00; x00; x00; x00;
   x00; x00; x00; x00; x00; x00; x00; x00].
Definition sim_dylib_first : sim := {|
  sim_pid0 := granted; sim_special := denied; sim_regions := two_regions;
  sim_mem := seg (kbase64 + 0x2000) dylib64
               (seg (kbase64 + 0x4000) macho64 zeros);
  sim_malloc := true; sim_stale := stale |}.
Definition marked (a : Z) : byte :=
  if a =? kbase64 + 0x1003 then xbe
  else if a =? kbase64 + 0x1004 then xef
  else x00.
Definition sim_marked : sim := {|
  sim_pid0 := granted; sim_special := denied; sim_regions := two_regions;
  sim_mem := fun a => Some (marked a);
  sim_malloc := true; sim_stale := stale |}.

(** Samples for the two acquisition attempts: a first call that fails
    yet leaves a valid port, a fallback that succeeds outright, two calls
    that report success without a usable port, and two calls that fail
    with codes of their own. *)
Definition sim_trusted : sim := {|
  sim_pid0 := {| pr_ret := KERN_FAILURE; pr_port := 0x1203 |};
  sim_special := denied; sim_regions := two_regions;
  sim_mem := zeros;
  sim_malloc := true; sim_stale := stale |}.
Definition sim_port4 : sim := {|
  sim_pid0 := denied;
  sim_special := {| pr_ret := KERN_SUCCESS; pr_port := 0x0e03 |};
  sim_regions := two_regions;
  sim_mem := zeros;
  sim_malloc := true; sim_stale := stale |}.
Definition sim_hollow : sim := {|
  sim_pid0 := {| pr_ret := KERN_SUCCESS; pr_port := MACH_PORT_NULL |};
  sim_special := {| pr_ret := KERN_SUCCESS; pr_port := MACH_PORT_DEAD |};
  sim_regions := two_regions;
  sim_mem := zeros;
  sim_malloc := true; sim_stale := stale |}.
Definition sim_refused : sim := {|
  sim_pid0 := {| pr_ret := KERN_INVALID_ARGUMENT; pr_port := MACH_PORT_NULL |};
  sim_special := {| pr_ret := KERN_NO_ACCESS; pr_port := MACH_PORT_DEAD |};
  sim_regions := two_regions;
  sim_mem := zeros;
  sim_malloc := true; sim_stale := stale |}.

(** The world a call left behind. *)
Definition world_of {T : Type} (r : option (T * world)) : world :=
  match r with
  | Some (_, w) => w
  | None => fresh_world
  end.

(** ** VERIFY_PORT

    The macro rewrites [ret] in place; the function returns its new value. *)
Definition VERIFY_PORT (port : Z) (ret : kern_return_t) : kern_return_t :=
  if MACH_PORT_VALID port then
    if ret =? KERN_SUCCESS then ret else KERN_SUCCESS
  else
    if ret =? KERN_SUCCESS then KERN_FAILURE else ret.

Section Libkern.

Variable A : arch.
Variable E : env.

Definition modulus : Z := 2 ^ Z.pos (wordbits A).
Definition wrap (x : Z) : Z := x mod modulus.
(** ports and tasks are 32-bit [natural_t] *)
Definition wrap32 (x : Z) : Z := x mod 2 ^ 32.

(** ** get_kernel_task *)

Inductive task_result : Type :=
| TaskOk (task : Z)              (* KERN_SUCCESS, [*task] written *)
| TaskFail (ret : kern_return_t). (* [ret] returned, [*task] untouched *)

Definition status (r : task_result) : kern_return_t :=
  match r with TaskOk _ => KERN_SUCCESS | TaskFail ret => ret end.

(** One acquisition attempt followed by VERIFY_PORT: the static is set to
    what the call left in it, and the reconciled status is returned. *)
Definition try_task_for_pid (w : world) : kern_return_t * world :=
  let w0 := set_kernel_task MACH_PORT_NULL w in
  let r := task_for_pid E (trace w0) 0 in
  let p := wrap32 (pr_port r) in
  let w1 := log (EvTaskForPid 0 p (pr_ret r)) (set_kernel_task p w0) in
  (VERIFY_PORT p (pr_ret r), w1).

Definition try_special_port (w : world) : kern_return_t * world :=
  let w0 := set_kernel_task MACH_PORT_NULL w in
  let r := host_get_special_port E (trace w0) HOST_LOCAL_NODE 4 in
  let p := wrap32 (pr_port r) in
  let w1 := log (EvHostGetSpecialPort HOST_LOCAL_NODE 4 p (pr_ret r))
                (set_kernel_task p w0) in
  (VERIFY_PORT p (pr_ret r), w1).

Definition get_kernel_task (w : world) : task_result * world :=
  if task_initialized w then (TaskOk (kernel_task w), w)
  else
    let '(ret, w1) := try_task_for_pid w in
    let '(ret, w2) :=
      if negb (ret =? KERN_SUCCESS) then try_special_port w1 else (ret, w1) in
    if negb (ret =? KERN_SUCCESS) then (TaskFail ret, w2)
    else (TaskOk (kernel_task w2), set_task_initialized w2).

(** ** get_kernel_base *)

(** One turn of the [for] loop over the regions: the call, the test on
    size and protection and, when the region is not the one, [addr += size]. *)
Record scan_state : Type := {
  s_depth : Z;          (* unsigned int depth *)
  s_count : Z;          (* mach_msg_type_number_t info_count *)
  s_world : world
}.

Inductive region_step : Type :=
| RegionNone (w : world)          (* no further region: return 0 *)
| RegionMatch (w : world)         (* over 1 GiB and ---: look for the header *)
| RegionSkip (s : scan_state).    (* next region *)

Definition next_region (t : Z) (s : scan_state) : region_step :=
  let w := s_world s in
  let r := vm_region_recurse_64 E (trace w) t (kbase_addr w)
                                (s_depth s) (s_count s) in
  let a := wrap (rr_addr r) in
  let size := wrap (rr_size r) in
  let w1 := log (EvRegion t (kbase_addr w) (rr_ret r) a size) (set_addr a w) in
  if negb (rr_ret r =? KERN_SUCCESS) then RegionNone w1
  else if (size >? 1024 * 1024 * 1024)
          && (Z.land (rr_protection r)
                     (Z.lor VM_PROT_READ (Z.lor VM_PROT_WRITE VM_PROT_EXECUTE))
              =? 0)
  then RegionMatch w1
  else RegionSkip {| s_depth := wrap32 (rr_depth r);
                     s_count := wrap32 (rr_count r);
                     s_world := set_addr (wrap (a + size)) w1 |}.

(** One turn of the [while(true)] loop: the two header reads and the
    choice between the two offsets. *)
Record hdr_state : Type := {
  h_hdr1 : list byte;   (* mach_hdr_t hdr1 *)
  h_hdr2 : list byte;   (* mach_hdr_t hdr2 *)
  h_world : world
}.

Inductive hdr_step : Type :=
| HdrReturn0 (w : world)          (* return 0 *)
| HdrAccept (w : world)           (* break: [addr] is the base *)
| HdrRetry (s : hdr_state).       (* continue, 0x100000 further *)

(** [vm_read_overwrite] of one header into [hdr]. *)
Definition read_hdr (t a : Z) (hdr : list byte) (w : world)
  : kern_return_t * list byte * world :=
  let r := vm_read_overwrite E (trace w) t a (sizeof_mach_hdr A) in
  (ro_ret r,
   store hdr 0 (ro_data r),
   log (EvRead t a (sizeof_mach_hdr A) (ro_ret r) (wrap (ro_size r))) w).

Definition check_headers (t : Z) (s : hdr_state) : hdr_step :=
  let w := h_world s in
  let addr := kbase_addr w in
  let '(ret1, hdr1, w1) :=
    read_hdr t (wrap (addr + IMAGE_OFFSET A)) (h_hdr1 s) w in
  if negb (ret1 =? KERN_SUCCESS) then HdrReturn0 w1
  else
    let '(ret2, hdr2, w2) :=
      read_hdr t (wrap (addr + 2 * IMAGE_OFFSET A)) (h_hdr2 s) w1 in
    if negb (ret2 =? KERN_SUCCESS) then
      if hdr_magic A hdr1 =? MACH_HEADER_MAGIC A
      then HdrAccept (set_addr (wrap (addr + IMAGE_OFFSET A)) w2)
      else HdrReturn0 w2
    else
      let m1 := hdr_magic A hdr1 =? MACH_HEADER_MAGIC A in
      let m2 := hdr_magic A hdr2 =? MACH_HEADER_MAGIC A in
      let e1 := (hdr_cputype A hdr1 =? MACH_TYPE A)
                && (hdr_filetype A hdr1 =? MH_EXECUTE) in
      let e2 := (hdr_cputype A hdr2 =? MACH_TYPE A)
                && (hdr_filetype A hdr2 =? MH_EXECUTE) in
      let b1 := if m1 && m2 then e1 else m1 in
      let b2 := if m1 && m2 then e2 else m2 in
      if (m1 && m2) && (b1 && b2) then HdrReturn0 w2
      else if b1 then HdrAccept (set_addr (wrap (addr + IMAGE_OFFSET A)) w2)
      else if b2 then HdrAccept (set_addr (wrap (addr + 2 * IMAGE_OFFSET A)) w2)
      else HdrRetry {| h_hdr1 := hdr1; h_hdr2 := hdr2;
                       h_world := set_addr (wrap (addr + 0x100000)) w2 |}.

(** The loops answer [(true, w)] when they leave with a base address in
    [kbase_addr w], and [(false, w)] when the function returns 0. *)
Fixpoint find_header (fuel : nat) (t : Z) (s : hdr_state)
  : option (bool * world) :=
  match check_headers t s with
  | HdrReturn0 w => Some (false, w)
  | HdrAccept w => Some (true, w)
  | HdrRetry s' =>
      match fuel with
      | O => None
      | S f => find_header f t s'
      end
  end.

(** [hdr1] and [hdr2] are declared without initialiser where the region
    matches. *)
Definition hdr_start (w : world) : hdr_state :=
  let sz := sizeof_mach_hdr A in
  {| h_hdr1 := fresh_bytes E (trace w) 0 sz;
     h_hdr2 := fresh_bytes E (trace w) (Z.to_nat sz) sz;
     h_world := w |}.

Fixpoint scan_regions (fuel : nat) (t : Z) (s : scan_state)
  : option (bool * world) :=
  match next_region t s with
  | RegionNone w => Some (false, w)
  | RegionMatch w => find_header fuel t (hdr_start w)
  | RegionSkip s' =>
      match fuel with
      | O => None
      | S f => scan_regions f t s'
      end
  end.

Definition scan_start (w : world) : scan_state :=
  {| s_depth := 0; s_count := VM_REGION_SUBMAP_INFO_COUNT_64;
     s_world := set_addr 0 w |}.

Definition get_kernel_base (fuel : nat) (w : world) : option (Z * world) :=
  if kbase_initialized w then Some (kbase_addr w, w)
  else
    match get_kernel_task w with
    | (TaskFail _, w1) => Some (0, w1)
    | (TaskOk t, w1) =>
        match scan_regions fuel t (scan_start w1) with
        | None => None
        | Some (false, w2) => Some (0, w2)
        | Some (true, w2) => Some (kbase_addr w2, set_kbase_initialized w2)
        end
    end.

(** ** read_kernel and write_kernel *)

Record rd_state : Type := {
  rd_addr : Z;          (* addr *)
  rd_remainder : Z;     (* remainder *)
  rd_bytes_read : Z;    (* bytes_read *)
  rd_buf : list byte;   (* the storage behind buf *)
  rd_world : world
}.

Inductive rd_step : Type :=
| RdExit                       (* addr < end is false *)
| RdBreak (s : rd_state)       (* the chunk failed or moved nothing *)
| RdAgain (s : rd_state).      (* the chunk was read; test again *)

Definition chunk_size (remainder : Z) : Z :=
  if remainder >? MAX_CHUNK_SIZE then MAX_CHUNK_SIZE else remainder.

Definition read_chunk (t end_ : Z) (s : rd_state) : rd_step :=
  if rd_addr s <? end_ then
    let size := chunk_size (rd_remainder s) in
    let r := vm_read_overwrite E (trace (rd_world s)) t (rd_addr s) size in
    let out := wrap (ro_size r) in
    let buf := store (rd_buf s) (Z.to_nat (rd_bytes_read s)) (ro_data r) in
    let w := log (EvRead t (rd_addr s) size (ro_ret r) out) (rd_world s) in
    if negb (ro_ret r =? KERN_SUCCESS) || (out =? 0) then
      RdBreak {| rd_addr := rd_addr s; rd_remainder := rd_remainder s;
                 rd_bytes_read := rd_bytes_read s;
                 rd_buf := buf; rd_world := w |}
    else
      RdAgain {| rd_addr := wrap (rd_addr s + out);
                 rd_remainder := wrap (rd_remainder s - out);
                 rd_bytes_read := wrap (rd_bytes_read s + out);
                 rd_buf := buf; rd_world := w |}
  else RdExit.

Fixpoint read_chunks (fuel : nat) (t end_ : Z) (s : rd_state)
  : option rd_state :=
  match read_chunk t end_ s with
  | RdExit => Some s
  | RdBreak s' => Some s'
  | RdAgain s' =>
      match fuel with
      | O => None
      | S f => read_chunks f t end_ s'
      end
  end.

Definition rd_start (addr size : Z) (buf : list byte) (w : world) : rd_state :=
  {| rd_addr := addr; rd_remainder := size; rd_bytes_read := 0;
     rd_buf := buf; rd_world := w |}.

Definition read_kernel (fuel : nat) (addr size : Z) (buf : list byte)
  (w : world) : option (Z * list byte * world) :=
  match get_kernel_task w with
  | (TaskFail _, w1) => Some (wrap (-1), buf, w1)
  | (TaskOk t, w1) =>
      match read_chunks fuel t (wrap (addr + size))
              (rd_start addr size buf w1) with
      | None => None
      | Some s => Some (rd_bytes_read s, rd_buf s, rd_world s)
      end
  end.

Record wr_state : Type := {
  wr_addr : Z;            (* addr *)
  wr_remainder : Z;       (* remainder *)
  wr_bytes_written : Z;   (* bytes_written *)
  wr_world : world
}.

Inductive wr_step : Type :=
| WrExit
| WrBreak (s : wr_state)
| WrAgain (s : wr_state).

Definition write_chunk (t end_ : Z) (data : list byte) (s : wr_state)
  : wr_step :=
  if wr_addr s <? end_ then
    let size := chunk_size (wr_remainder s) in
    let chunk := firstn (Z.to_nat size)
                        (skipn (Z.to_nat (wr_bytes_written s)) data) in
    let ret := vm_write E (trace (wr_world s)) t (wr_addr s) chunk size in
    let w := log (EvWrite t (wr_addr s) size ret) (wr_world s) in
    if negb (ret =? KERN_SUCCESS) then
      WrBreak {| wr_addr := wr_addr s; wr_remainder := wr_remainder s;
                 wr_bytes_written := wr_bytes_written s; wr_world := w |}
    else
      WrAgain {| wr_addr := wrap (wr_addr s + size);
                 wr_remainder := wrap (wr_remainder s - size);
                 wr_bytes_written := wrap (wr_bytes_written s + size);
                 wr_world := w |}
  else WrExit.

Fixpoint write_chunks (fuel : nat) (t end_ : Z) (data : list byte)
  (s : wr_state) : option wr_state :=
  match write_chunk t end_ data s with
  | WrExit => Some s
  | WrBreak s' => Some s'
  | WrAgain s' =>
      match fuel with
      | O => None
      | S f => write_chunks f t end_ data s'
      end
  end.

Definition wr_start (addr size : Z) (w : world) : wr_state :=
  {| wr_addr := addr; wr_remainder := size;
     wr_bytes_written := 0; wr_world := w |}.

Definition write_kernel (fuel : nat) (addr : Z) (data : list byte) (size : Z)
  (w : world) : option (Z * world) :=
  match get_kernel_task w with
  | (TaskFail _, w1) => Some (wrap (-1), w1)
  | (TaskOk t, w1) =>
      match write_chunks fuel t (wrap (addr + size)) data
              (wr_start addr size w1) with
      | None => None
      | Some s => Some (wr_bytes_written s, wr_world s)
      end
  end.

(** ** find_bytes_kern *)

(** [memmem]: the offset of the first occurrence of [little] in [big]. *)
Fixpoint is_prefix (little l : list byte) : bool :=
  match little, l with
  | [], _ => true
  | _ :: _, [] => false
  | p :: little', x :: l' => Byte.eqb p x && is_prefix little' l'
  end.

Fixpoint search (little l : list byte) (k : nat) : option nat :=
  if is_prefix little l then Some k
  else match l with
       | [] => None
       | _ :: l' => search little l' (S k)
       end.

Definition memmem (big little : list byte) : option nat :=
  match little with
  | [] => if memmem_empty A then Some 0%nat else None
  | _ :: _ => search little big 0
  end.

(** The pattern is the list [bytes]; its length is the [length] argument. *)
Definition find_bytes_kern (fuel : nat) (start end_ : Z) (bytes : list byte)
  (w : world) : option (Z * world) :=
  let n := wrap (end_ - start) in
  let ok := malloc E (trace w) n in
  let w0 := log (EvMalloc n ok) w in
  if ok then
    let buf := fresh_bytes E (trace w) 0 n in
    match read_kernel fuel start n buf w0 with
    | None => None
    | Some (got, buf', w1) =>
        let ret :=
          if negb (got =? 0) then
            match memmem (firstn (Z.to_nat n) buf') bytes with
            | Some k => wrap (Z.of_nat k + start)
            | None => 0
            end
          else 0 in
        Some (ret, log EvFree w1)
    end
  else Some (0, w0).

(** ** Runs of the loops, for the statements

    [skip_regions k t s]: the state after [k] regions were enumerated from
    [s] and none of them was the one sought.  [read_both t s]: the two
    headers and the world after both reads of one turn succeeded.
    [read_prefix k] and [write_prefix k]: the state after [k] chunks were
    moved. *)

Fixpoint skip_regions (k : nat) (t : Z) (s : scan_state) : option scan_state :=
  match k with
  | O => Some s
  | S k' =>
      match next_region t s with
      | RegionSkip s' => skip_regions k' t s'
      | _ => None
      end
  end.

Definition read_both (t : Z) (s : hdr_state)
  : option (list byte * list byte * world) :=
  let w := h_world s in
  let '(ret1, hdr1, w1) :=
    read_hdr t (wrap (kbase_addr w + IMAGE_OFFSET A)) (h_hdr1 s) w in
  let '(ret2, hdr2, w2) :=
    read_hdr t (wrap (kbase_addr w + 2 * IMAGE_OFFSET A)) (h_hdr2 s) w1 in
  if (ret1 =? KERN_SUCCESS) && (ret2 =? KERN_SUCCESS)
  then Some (hdr1, hdr2, w2)
  else None.

Definition magic_ok (hdr : list byte) : bool :=
  hdr_magic A hdr =? MACH_HEADER_MAGIC A.

Definition exec_ok (hdr : list byte) : bool :=
  (hdr_cputype A hdr =? MACH_TYPE A) && (hdr_filetype A hdr =? MH_EXECUTE).

Fixpoint read_prefix (k : nat) (t end_ : Z) (s : rd_state) : option rd_state :=
  match k with
  | O => Some s
  | S k' =>
      match read_chunk t end_ s with
      | RdAgain s' => read_prefix k' t end_ s'
      | _ => None
      end
  end.

Fixpoint write_prefix (k : nat) (t end_ : Z) (data : list byte) (s : wr_state)
  : option wr_state :=
  match k with
  | O => Some s
  | S k' =>
      match write_chunk t end_ data s with
      | WrAgain s' => write_prefix k' t end_ data s'
      | _ => None
      end
  end.

(** What an event says was moved: the out-size of a read that succeeded,
    the size of a write that succeeded. *)
Definition moved (e : event) : Z :=
  match e with
  | EvRead _ _ _ ret outsize => if ret =? KERN_SUCCESS then outsize else 0
  | EvWrite _ _ size ret => if ret =? KERN_SUCCESS then size else 0
  | _ => 0
  end.

Definition total_moved (evs : list event) : Z :=
  fold_right (fun e acc => moved e + acc) 0 evs.

(** A read that did not report more than was asked for. *)
Definition within_request (e : event) : Prop :=
  match e with
  | EvRead _ _ size _ outsize => outsize <= size
  | _ => True
  end.


(** Chunks one behind the other: each starts where the one before ended. *)
Definition ev_addr (e : event) : Z :=
  match e with
  | EvRead _ a _ _ _ | EvWrite _ a _ _ => a
  | _ => 0
  end.


(** [little] lies in [big] at offset [k]. *)
Definition occurs_at (big little : list byte) (k : nat) : Prop :=
  (k <= length big)%nat /\ exists post, skipn k big = little ++ post.

(** ** Sequences of calls to the library *)

Inductive api_step : world -> world -> Prop :=
| step_get_kernel_task w r w' :
    get_kernel_task w = (r, w') -> api_step w w'
| step_get_kernel_base fuel w a w' :
    get_kernel_base fuel w = Some (a, w') -> api_step w w'
| step_read_kernel fuel addr size buf w n buf' w' :
    read_kernel fuel addr size buf w = Some (n, buf', w') -> api_step w w'
| step_write_kernel fuel addr data size w n w' :
    write_kernel fuel addr data size w = Some (n, w') -> api_step w w'
| step_find_bytes_kern fuel start end_ bytes w a w' :
    find_bytes_kern fuel start end_ bytes w = Some (a, w') -> api_step w w'.

Inductive api_reach : world -> world -> Prop :=
| reach_here w : api_reach w w
| reach_step w w1 w2 : api_step w w1 -> api_reach w1 w2 -> api_reach w w2.

(** The two caches. *)
Definition task_cache (w : world) : Z * bool :=
  (kernel_task w, task_initialized w).
Definition base_cache (w : world) : Z * bool :=
  (kbase_addr w, kbase_initialized w).

(** The task cache and the flag of the base cache are as before. *)
Definition keeps_task (w w' : world) : Prop :=
  task_cache w' = task_cache w
  /\ kbase_initialized w' = kbase_initialized w.

(** ** Further runs and predicates, for the properties beyond the claims *)

(** The two header reads of one turn, as [check_headers] makes them. *)
Definition first_read (t : Z) (s : hdr_state)
  : kern_return_t * list byte * world :=
  read_hdr t (wrap (kbase_addr (h_world s) + IMAGE_OFFSET A))
           (h_hdr1 s) (h_world s).

Definition second_read (t : Z) (s : hdr_state)
  : kern_return_t * list byte * world :=
  read_hdr t (wrap (kbase_addr (h_world s) + 2 * IMAGE_OFFSET A))
           (h_hdr2 s) (snd (first_read t s)).

(** The size a transfer asked for. *)
Definition ev_size (e : event) : Z :=
  match e with
  | EvRead _ _ size _ _ | EvWrite _ _ size _ => size
  | _ => 0
  end.

(** A transfer of at most [MAX_CHUNK_SIZE] bytes that lies in [lo, hi). *)
Definition inside (lo hi : Z) (e : event) : Prop :=
  lo <= ev_addr e /\ ev_addr e + ev_size e <= hi
  /\ 0 < ev_size e <= MAX_CHUNK_SIZE.

(** A transfer on which the loop breaks. *)
Definition broke (e : event) : Prop :=
  match e with
  | EvRead _ _ _ ret outsize => ret <> KERN_SUCCESS \/ outsize = 0
  | EvWrite _ _ _ ret => ret <> KERN_SUCCESS
  | _ => False
  end.

Definition is_alloc (e : event) : bool :=
  match e with
  | EvMalloc _ _ | EvFree => true
  | _ => false
  end.

(** The [n] bytes of a memory from address [a] on. *)
Definition mem_bytes (mem : Z -> byte) (a : Z) (n : nat) : list byte :=
  map (fun i => mem (a + Z.of_nat i)) (seq 0 n).

(** Every chunk read inside [lo, hi) succeeds in full and delivers what
    [mem] holds there. *)
Definition reads_memory (t : Z) (mem : Z -> byte) (lo hi : Z) : Prop :=
  forall (h : list event) (a c : Z),
    0 < c <= MAX_CHUNK_SIZE -> lo <= a -> a + c <= hi ->
    vm_read_overwrite E h t a c
    = {| ro_ret := KERN_SUCCESS;
         ro_data := mem_bytes mem a (Z.to_nat c);
         ro_size := c |}.

(** No successful read of a size that is not negative reports more bytes
    than it was asked for. *)
Definition reads_bounded : Prop :=
  forall (h : list event) (t a c : Z),
    0 <= c ->
    ro_ret (vm_read_overwrite E h t a c) = KERN_SUCCESS ->
    wrap (ro_size (vm_read_overwrite E h t a c)) <= c.

(** A cached task is a valid port, and the base is cached only with the
    task. *)
Definition caches_consistent (w : world) : Prop :=
  (task_initialized w = true -> MACH_PORT_VALID (kernel_task w) = true)
  /\ (kbase_initialized w = true -> task_initialized w = true).

(** * Properties *)

(** ** Machine words *)

Lemma modulus_gt_1 : 1 < modulus.
Proof.
  unfold modulus.
  assert (H : 2 ^ 0 < 2 ^ Z.pos (wordbits A))
    by (apply Z.pow_lt_mono_r; lia).
  simpl in H. lia.
Qed.

Lemma wrap_range (x : Z) : 0 <= wrap x < modulus.
Proof. unfold wrap. apply Z.mod_pos_bound. pose proof modulus_gt_1. lia. Qed.

Lemma wrap_small (x : Z) : 0 <= x < modulus -> wrap x = x.
Proof. intros H. unfold wrap. now apply Z.mod_small. Qed.

Lemma wrap_minus_1 : wrap (-1) = modulus - 1.
Proof.
  pose proof modulus_gt_1 as Hm. unfold wrap.
  symmetry. apply Z.mod_unique with (q := -1); lia.
Qed.

(** ** get_kernel_task *)

Lemma task_cache_log (e : event) (w : world) :
  task_cache (log e w) = task_cache w.
Proof. reflexivity. Qed.

Lemma base_cache_log (e : event) (w : world) :
  base_cache (log e w) = base_cache w.
Proof. reflexivity. Qed.

Lemma get_kernel_task_cached (w : world) :
  task_initialized w = true ->
  get_kernel_task w = (TaskOk (kernel_task w), w).
Proof. intros H. unfold get_kernel_task. now rewrite H. Qed.

(** The shape of a call that finds the cache empty. *)
Lemma get_kernel_task_uncached (w : world) :
  task_initialized w = false ->
  get_kernel_task w =
  let r1 := try_task_for_pid w in
  if fst r1 =? KERN_SUCCESS
  then (TaskOk (kernel_task (snd r1)), set_task_initialized (snd r1))
  else
    let r2 := try_special_port (snd r1) in
    if fst r2 =? KERN_SUCCESS
    then (TaskOk (kernel_task (snd r2)), set_task_initialized (snd r2))
    else (TaskFail (fst r2), snd r2).
Proof.
  intros Hi. unfold get_kernel_task. rewrite Hi.
  destruct (try_task_for_pid w) as [r1 w1]. cbn [fst snd].
  destruct (r1 =? KERN_SUCCESS) eqn:H1; cbn [negb].
  - rewrite H1. reflexivity.
  - destruct (try_special_port w1) as [r2 w2]. cbn [fst snd].
    destruct (r2 =? KERN_SUCCESS); reflexivity.
Qed.

Lemma get_kernel_task_ok (w w' : world) (t : Z) :
  get_kernel_task w = (TaskOk t, w') ->
  task_initialized w' = true /\ kernel_task w' = t.
Proof.
  destruct (task_initialized w) eqn:Hi.
  - rewrite get_kernel_task_cached by assumption. intros [= <- <-]. auto.
  - rewrite get_kernel_task_uncached by assumption. cbv zeta.
    repeat match goal with
           | |- context [if ?b then _ else _] => destruct b
           end; intros [= <- <-]; auto.
Qed.

Lemma get_kernel_task_fail (w w' : world) (ret : kern_return_t) :
  get_kernel_task w = (TaskFail ret, w') ->
  ret <> KERN_SUCCESS /\ task_initialized w = false
  /\ task_initialized w' = false.
Proof.
  destruct (task_initialized w) eqn:Hi.
  - rewrite get_kernel_task_cached by assumption. discriminate.
  - rewrite get_kernel_task_uncached by assumption. cbv zeta.
    destruct (fst (try_task_for_pid w) =? KERN_SUCCESS); [discriminate|].
    destruct (fst (try_special_port _) =? KERN_SUCCESS) eqn:H2;
      [discriminate|].
    intros [= <- <-]. rewrite Z.eqb_neq in H2. repeat split; auto.
Qed.

(** The value the C function returns is [KERN_SUCCESS] exactly when the
    task was handed out. *)
Lemma get_kernel_task_status (w w' : world) (r : task_result) :
  get_kernel_task w = (r, w') ->
  (status r = KERN_SUCCESS <-> exists t, r = TaskOk t).
Proof.
  intros H. destruct r as [t|ret]; cbn [status].
  - split; [intros _; now exists t | reflexivity].
  - apply get_kernel_task_fail in H. destruct H as [H _].
    split; [contradiction | intros [t Ht]; discriminate].
Qed.

Lemma get_kernel_task_base_cache (w w' : world) (r : task_result) :
  get_kernel_task w = (r, w') -> base_cache w' = base_cache w.
Proof.
  destruct (task_initialized w) eqn:Hi.
  - rewrite get_kernel_task_cached by assumption. now intros [= <- <-].
  - rewrite get_kernel_task_uncached by assumption. cbv zeta.
    repeat match goal with
           | |- context [if ?b then _ else _] => destruct b
           end; intros [= <- <-]; reflexivity.
Qed.

(** The four cases of the macro. *)
Lemma VERIFY_PORT_cases (port : Z) (ret : kern_return_t) :
  (MACH_PORT_VALID port = true -> ret = KERN_SUCCESS ->
   VERIFY_PORT port ret = KERN_SUCCESS)
  /\ (MACH_PORT_VALID port = true -> ret <> KERN_SUCCESS ->
      VERIFY_PORT port ret = KERN_SUCCESS)
  /\ (MACH_PORT_VALID port = false -> ret = KERN_SUCCESS ->
      VERIFY_PORT port ret = KERN_FAILURE)
  /\ (MACH_PORT_VALID port = false -> ret <> KERN_SUCCESS ->
      VERIFY_PORT port ret = ret).
Proof.
  unfold VERIFY_PORT.
  split; [|split; [|split]].
  - intros -> ->. reflexivity.
  - intros -> Hr. apply Z.eqb_neq in Hr. now rewrite Hr.
  - intros -> ->. reflexivity.
  - intros -> Hr. apply Z.eqb_neq in Hr. now rewrite Hr.
Qed.

(** What the table means for the whole function: with an empty cache,
    [get_kernel_task] succeeds exactly when one of the two attempts it
    makes leaves a valid port, whatever the status codes say. *)
Lemma VERIFY_PORT_success (port : Z) (ret : kern_return_t) :
  VERIFY_PORT port ret = KERN_SUCCESS <-> MACH_PORT_VALID port = true.
Proof.
  unfold VERIFY_PORT.
  destruct (MACH_PORT_VALID port); destruct (ret =? KERN_SUCCESS) eqn:Hr.
  - apply Z.eqb_eq in Hr. tauto.
  - tauto.
  - split; discriminate.
  - apply Z.eqb_neq in Hr. split; [tauto | discriminate].
Qed.

Lemma get_kernel_task_trusts_port (w : world) :
  task_initialized w = false ->
  let w1 := snd (try_task_for_pid w) in
  let w2 := snd (try_special_port w1) in
  (MACH_PORT_VALID (kernel_task w1) = true ->
   get_kernel_task w = (TaskOk (kernel_task w1), set_task_initialized w1))
  /\ (MACH_PORT_VALID (kernel_task w1) = false ->
      MACH_PORT_VALID (kernel_task w2) = true ->
      get_kernel_task w = (TaskOk (kernel_task w2), set_task_initialized w2))
  /\ (MACH_PORT_VALID (kernel_task w1) = false ->
      MACH_PORT_VALID (kernel_task w2) = false ->
      get_kernel_task w = (TaskFail (fst (try_special_port w1)), w2)).
Proof.
  intros Hi w1 w2. rewrite (get_kernel_task_uncached w Hi). cbv zeta.
  fold w1. fold w2.
  assert (H1 : fst (try_task_for_pid w) = KERN_SUCCESS
               <-> MACH_PORT_VALID (kernel_task w1) = true)
    by apply VERIFY_PORT_success.
  assert (H2 : fst (try_special_port w1) = KERN_SUCCESS
               <-> MACH_PORT_VALID (kernel_task w2) = true)
    by apply VERIFY_PORT_success.
  rewrite <- Z.eqb_eq in H1, H2.
  destruct (fst (try_task_for_pid w) =? KERN_SUCCESS);
    destruct (fst (try_special_port w1) =? KERN_SUCCESS);
    destruct (MACH_PORT_VALID (kernel_task w1));
    destruct (MACH_PORT_VALID (kernel_task w2));
    repeat split; intros; try reflexivity; try discriminate;
    try (destruct H1; discriminate (H2)); intuition discriminate.
Qed.

(** C1. Each of the two acquisition attempts of [get_kernel_task]
    reconciles the port its call returned with the status the call gave,
    by the four cases of [VERIFY_PORT], and the function goes by the
    reconciled status.  A valid port from [task_for_pid(0)] is a success,
    with a success status and with a failure status alike (the status is
    overwritten with [KERN_SUCCESS]): the port is handed out and nothing
    else is tried.  An invalid port is a failure, with status
    [KERN_FAILURE] when the call had reported success (the status is
    corrected) and with the call's own status otherwise: the fallback is
    tried.  The same four cases decide the fallback,
    [host_get_special_port(HOST_LOCAL_NODE, 4)]: its valid port is handed
    out whatever its status; with its invalid port [get_kernel_task]
    returns [KERN_FAILURE] when the call had reported success and the
    call's own failure status otherwise. *)
Theorem acquisition_attempts_follow_the_table (w : world) :
  task_initialized w = false ->
  let r1 := task_for_pid E (trace w) 0 in
  let p1 := wrap32 (pr_port r1) in
  let e1 := EvTaskForPid 0 p1 (pr_ret r1) in
  let r2 := host_get_special_port E (trace w ++ [e1]) HOST_LOCAL_NODE 4 in
  let p2 := wrap32 (pr_port r2) in
  let e2 := EvHostGetSpecialPort HOST_LOCAL_NODE 4 p2 (pr_ret r2) in
  let w1 := snd (try_task_for_pid w) in
  (MACH_PORT_VALID p1 = true -> pr_ret r1 = KERN_SUCCESS ->
   fst (try_task_for_pid w) = KERN_SUCCESS
   /\ exists w', get_kernel_task w = (TaskOk p1, w')
                 /\ trace w' = trace w ++ [e1])
  /\ (MACH_PORT_VALID p1 = true -> pr_ret r1 <> KERN_SUCCESS ->
      fst (try_task_for_pid w) = KERN_SUCCESS
      /\ exists w', get_kernel_task w = (TaskOk p1, w')
                    /\ trace w' = trace w ++ [e1])
  /\ (MACH_PORT_VALID p1 = false -> pr_ret r1 = KERN_SUCCESS ->
      fst (try_task_for_pid w) = KERN_FAILURE
      /\ exists r w', get_kernel_task w = (r, w')
                      /\ trace w' = trace w ++ [e1; e2])
  /\ (MACH_PORT_VALID p1 = false -> pr_ret r1 <> KERN_SUCCESS ->
      fst (try_task_for_pid w) = pr_ret r1
      /\ exists r w', get_kernel_task w = (r, w')
                      /\ trace w' = trace w ++ [e1; e2])
  /\ (MACH_PORT_VALID p1 = false ->
      (MACH_PORT_VALID p2 = true -> pr_ret r2 = KERN_SUCCESS ->
       fst (try_special_port w1) = KERN_SUCCESS
       /\ exists w', get_kernel_task w = (TaskOk p2, w')
                     /\ trace w' = trace w ++ [e1; e2])
      /\ (MACH_PORT_VALID p2 = true -> pr_ret r2 <> KERN_SUCCESS ->
          fst (try_special_port w1) = KERN_SUCCESS
          /\ exists w', get_kernel_task w = (TaskOk p2, w')
                        /\ trace w' = trace w ++ [e1; e2])
      /\ (MACH_PORT_VALID p2 = false -> pr_ret r2 = KERN_SUCCESS ->
          fst (try_special_port w1) = KERN_FAILURE
          /\ exists w', get_kernel_task w = (TaskFail KERN_FAILURE, w')
                        /\ trace w' = trace w ++ [e1; e2])
      /\ (MACH_PORT_VALID p2 = false -> pr_ret r2 <> KERN_SUCCESS ->
          fst (try_special_port w1) = pr_ret r2
          /\ exists w', get_kernel_task w = (TaskFail (pr_ret r2), w')
                        /\ trace w' = trace w ++ [e1; e2])).
Proof.
  intros Hi r1 p1 e1 r2 p2 e2 w1.
  destruct (get_kernel_task_trusts_port w Hi) as (H1 & H2 & H3).
  cbv zeta in H1, H2, H3. fold w1 in H1, H2, H3.
  assert (Hs1 : fst (try_task_for_pid w) = VERIFY_PORT p1 (pr_ret r1))
    by reflexivity.
  assert (Hk1 : kernel_task w1 = p1) by reflexivity.
  assert (Ht1 : trace w1 = trace w ++ [e1]) by reflexivity.
  assert (Hs2 : fst (try_special_port w1) = VERIFY_PORT p2 (pr_ret r2))
    by reflexivity.
  assert (Hk2 : kernel_task (snd (try_special_port w1)) = p2) by reflexivity.
  assert (Ht2 : trace (snd (try_special_port w1)) = trace w ++ [e1; e2]).
  { cbn [try_special_port snd trace log set_kernel_task]. rewrite Ht1.
    rewrite <- app_assoc. reflexivity. }
  rewrite Hk1 in H1, H2, H3. rewrite Hk2 in H2, H3. rewrite Hs2 in H3.
  destruct (VERIFY_PORT_cases p1 (pr_ret r1)) as (T1 & T2 & T3 & T4).
  destruct (VERIFY_PORT_cases p2 (pr_ret r2)) as (U1 & U2 & U3 & U4).
  assert (Hfb : MACH_PORT_VALID p1 = false ->
                exists r w', get_kernel_task w = (r, w')
                             /\ trace w' = trace w ++ [e1; e2]).
  { intros Hv1. destruct (MACH_PORT_VALID p2) eqn:Hv2.
    - do 2 eexists. split; [apply H2; [exact Hv1 | reflexivity]|].
      exact Ht2.
    - do 2 eexists. split; [apply H3; [exact Hv1 | reflexivity]|].
      exact Ht2. }
  split; [|split; [|split; [|split]]].
  - intros Hv Hr. split; [rewrite Hs1; now apply T1|].
    eexists. split; [apply H1; exact Hv | exact Ht1].
  - intros Hv Hr. split; [rewrite Hs1; now apply T2|].
    eexists. split; [apply H1; exact Hv | exact Ht1].
  - intros Hv Hr. split; [rewrite Hs1; now apply T3 | now apply Hfb].
  - intros Hv Hr. split; [rewrite Hs1; now apply T4 | now apply Hfb].
  - intros Hv1. split; [|split; [|split]].
    + intros Hv2 Hr. split; [rewrite Hs2; now apply U1|].
      eexists. split; [apply H2; assumption | exact Ht2].
    + intros Hv2 Hr. split; [rewrite Hs2; now apply U2|].
      eexists. split; [apply H2; assumption | exact Ht2].
    + intros Hv2 Hr. split; [rewrite Hs2; now apply U3|].
      eexists. split; [|exact Ht2].
      rewrite (H3 Hv1 Hv2), (U3 Hv2 Hr). reflexivity.
    + intros Hv2 Hr. split; [rewrite Hs2; now apply U4|].
      eexists. split; [|exact Ht2].
      rewrite (H3 Hv1 Hv2), (U4 Hv2 Hr). reflexivity.
Qed.

(** ** The loops leave the caches alone *)

Lemma read_chunks_caches (fuel : nat) (t end_ : Z) (s s' : rd_state) :
  read_chunks fuel t end_ s = Some s' ->
  task_cache (rd_world s') = task_cache (rd_world s)
  /\ base_cache (rd_world s') = base_cache (rd_world s).
Proof.
  revert s. induction fuel as [|f IH]; intros s; simpl;
    unfold read_chunk;
    destruct (rd_addr s <? end_);
    try destruct (negb _ || _);
    try (intros [= <-]; auto; fail); try discriminate.
  intros H. apply IH in H. simpl in H. exact H.
Qed.

Lemma write_chunks_caches (fuel : nat) (t end_ : Z) (data : list byte)
  (s s' : wr_state) :
  write_chunks fuel t end_ data s = Some s' ->
  task_cache (wr_world s') = task_cache (wr_world s)
  /\ base_cache (wr_world s') = base_cache (wr_world s).
Proof.
  revert s. induction fuel as [|f IH]; intros s; simpl;
    unfold write_chunk;
    destruct (wr_addr s <? end_);
    try destruct (negb _);
    try (intros [= <-]; auto; fail); try discriminate.
  intros H. apply IH in H. simpl in H. exact H.
Qed.

Lemma check_headers_keeps (t : Z) (s : hdr_state) :
  match check_headers t s with
  | HdrReturn0 w | HdrAccept w => keeps_task (h_world s) w
  | HdrRetry s' => keeps_task (h_world s) (h_world s')
  end.
Proof.
  unfold check_headers, read_hdr. cbv zeta.
  repeat match goal with
         | |- context [if ?b then _ else _] => destruct b
         end; split; reflexivity.
Qed.

Lemma find_header_keeps (fuel : nat) (t : Z) (s : hdr_state)
  (b : bool) (w : world) :
  find_header fuel t s = Some (b, w) -> keeps_task (h_world s) w.
Proof.
  revert s. induction fuel as [|f IH]; intros s; simpl;
    pose proof (check_headers_keeps t s) as Hk;
    destruct (check_headers t s) as [w0|w0|s'];
    try (intros [= <- <-]; exact Hk); try discriminate.
  intros H. apply IH in H. destruct Hk as [Hk1 Hk2], H as [H1 H2].
  split; congruence.
Qed.

Lemma next_region_keeps (t : Z) (s : scan_state) :
  match next_region t s with
  | RegionNone w | RegionMatch w => keeps_task (s_world s) w
  | RegionSkip s' => keeps_task (s_world s) (s_world s')
  end.
Proof.
  unfold next_region. cbv zeta.
  repeat match goal with
         | |- context [if ?b then _ else _] => destruct b
         end; split; reflexivity.
Qed.

Lemma scan_regions_keeps (fuel : nat) (t : Z) (s : scan_state)
  (b : bool) (w : world) :
  scan_regions fuel t s = Some (b, w) -> keeps_task (s_world s) w.
Proof.
  revert s. induction fuel as [|f IH]; intros s; cbn [scan_regions];
    pose proof (next_region_keeps t s) as Hk;
    destruct (next_region t s) as [w0|w0|s'];
    try (intros [= <- <-]; exact Hk); try discriminate;
    intros H.
  - apply find_header_keeps in H. simpl in H.
    destruct Hk, H. split; congruence.
  - apply find_header_keeps in H. simpl in H.
    destruct Hk, H. split; congruence.
  - apply IH in H. destruct Hk, H. split; congruence.
Qed.

(** A call of any entry point keeps a filled task cache as it is. *)
Lemma api_step_task_cache (w w' : world) :
  api_step w w' -> task_initialized w = true ->
  task_cache w' = task_cache w.
Proof.
  intros Hs Hi. destruct Hs as
    [w r w' H | fuel w a w' H | fuel addr size buf w n buf' w' H
     | fuel addr data size w n w' H | fuel start end_ bytes w a w' H].
  - rewrite get_kernel_task_cached in H by assumption.
    now injection H as <- <-.
  - unfold get_kernel_base in H.
    destruct (kbase_initialized w); [now injection H as <- <-|].
    rewrite get_kernel_task_cached in H by assumption.
    destruct (scan_regions _ _ _) as [[[|] w2]|] eqn:Hscan;
      try discriminate; injection H as <- <-;
      apply scan_regions_keeps in Hscan; destruct Hscan as [Hc _];
      exact Hc.
  - unfold read_kernel in H.
    rewrite get_kernel_task_cached in H by assumption.
    destruct (read_chunks _ _ _ _) as [s|] eqn:Hrd; [|discriminate].
    injection H as <- <- <-. apply read_chunks_caches in Hrd. tauto.
  - unfold write_kernel in H.
    rewrite get_kernel_task_cached in H by assumption.
    destruct (write_chunks _ _ _ _ _) as [s|] eqn:Hwr; [|discriminate].
    injection H as <- <-. apply write_chunks_caches in Hwr. tauto.
  - unfold find_bytes_kern in H.
    destruct (malloc E (trace w) _); [|now injection H as <- <-].
    destruct (read_kernel _ _ _ _ _) as [[[got buf'] w1]|] eqn:Hrk;
      [|discriminate].
    injection H as <- <-. rewrite task_cache_log.
    unfold read_kernel in Hrk.
    rewrite get_kernel_task_cached in Hrk by assumption.
    destruct (read_chunks _ _ _ _) as [s|] eqn:Hrd; [|discriminate].
    injection Hrk as <- <- <-. apply read_chunks_caches in Hrd.
    simpl in Hrd. destruct Hrd as [Hrd _]. rewrite Hrd. reflexivity.
Qed.

Lemma read_kernel_base_cache (fuel : nat) (addr size : Z) (buf buf' : list byte)
  (w w' : world) (n : Z) :
  read_kernel fuel addr size buf w = Some (n, buf', w') ->
  base_cache w' = base_cache w.
Proof.
  unfold read_kernel. intros H.
  destruct (get_kernel_task w) as [[t|ret] w1] eqn:Hg;
    apply get_kernel_task_base_cache in Hg.
  - destruct (read_chunks _ _ _ _) as [s|] eqn:Hrd; [|discriminate].
    injection H as <- <- <-. apply read_chunks_caches in Hrd.
    simpl in Hrd. destruct Hrd as [_ Hrd]. congruence.
  - injection H as <- <- <-. exact Hg.
Qed.

(** A call of any entry point keeps a filled base cache as it is. *)
Lemma api_step_base_cache (w w' : world) :
  api_step w w' -> kbase_initialized w = true ->
  base_cache w' = base_cache w.
Proof.
  intros Hs Hi. destruct Hs as
    [w r w' H | fuel w a w' H | fuel addr size buf w n buf' w' H
     | fuel addr data size w n w' H | fuel start end_ bytes w a w' H].
  - now apply get_kernel_task_base_cache in H.
  - unfold get_kernel_base in H. rewrite Hi in H. now injection H as <- <-.
  - now apply read_kernel_base_cache in H.
  - unfold write_kernel in H.
    destruct (get_kernel_task w) as [[t|ret] w1] eqn:Hg;
      apply get_kernel_task_base_cache in Hg.
    + destruct (write_chunks _ _ _ _ _) as [s|] eqn:Hwr; [|discriminate].
      injection H as <- <-. apply write_chunks_caches in Hwr.
      simpl in Hwr. destruct Hwr as [_ Hwr]. congruence.
    + injection H as <- <-. exact Hg.
  - unfold find_bytes_kern in H.
    destruct (malloc E (trace w) _); [|now injection H as <- <-].
    destruct (read_kernel _ _ _ _ _) as [[[got buf'] w1]|] eqn:Hrk;
      [|discriminate].
    injection H as <- <-. rewrite base_cache_log.
    apply read_kernel_base_cache in Hrk. exact Hrk.
Qed.

Lemma api_reach_task_cache (w w' : world) :
  api_reach w w' -> task_initialized w = true ->
  task_cache w' = task_cache w.
Proof.
  induction 1 as [w | w w1 w2 Hs _ IH]; intros Hi; [reflexivity|].
  pose proof (api_step_task_cache _ _ Hs Hi) as H1.
  rewrite IH; [exact H1|].
  unfold task_cache in H1. injection H1 as _ H1. congruence.
Qed.

Lemma api_reach_base_cache (w w' : world) :
  api_reach w w' -> kbase_initialized w = true ->
  base_cache w' = base_cache w.
Proof.
  induction 1 as [w | w w1 w2 Hs _ IH]; intros Hi; [reflexivity|].
  pose proof (api_step_base_cache _ _ Hs Hi) as H1.
  rewrite IH; [exact H1|].
  unfold base_cache in H1. injection H1 as _ H1. congruence.
Qed.

(** C8. After a first successful call, every later call of
    [get_kernel_task] and of [get_kernel_base], whatever calls of the
    library lie in between, returns the value of the first one and leaves
    the world as it finds it: nothing is added to the trace, so no trap is
    taken, no region enumerated and no header read. *)
Theorem cached_results_are_stable :
  (forall (w w1 : world) (t : Z),
      get_kernel_task w = (TaskOk t, w1) ->
      forall w2, api_reach w1 w2 ->
                 get_kernel_task w2 = (TaskOk t, w2))
  /\ (forall (fuel : nat) (w w1 : world) (a : Z),
         get_kernel_base fuel w = Some (a, w1) -> a <> 0 ->
         forall (w2 : world) (fuel' : nat),
           api_reach w1 w2 ->
           get_kernel_base fuel' w2 = Some (a, w2)).
Proof.
  split.
  - intros w w1 t H w2 Hr.
    apply get_kernel_task_ok in H. destruct H as [Hi Ht].
    pose proof (api_reach_task_cache _ _ Hr Hi) as Hc.
    unfold task_cache in Hc. injection Hc as Hk Hi2.
    rewrite get_kernel_task_cached by congruence. congruence.
  - intros fuel w w1 a H Ha w2 fuel' Hr.
    assert (Hc : kbase_initialized w1 = true /\ kbase_addr w1 = a).
    { unfold get_kernel_base in H.
      destruct (kbase_initialized w) eqn:Hi.
      - injection H as <- <-. auto.
      - destruct (get_kernel_task w) as [[t|ret] w0].
        + destruct (scan_regions _ _ _) as [[[|] w3]|];
            try discriminate; injection H as <- <-; simpl; auto.
          contradiction.
        + injection H as <- <-. contradiction. }
    destruct Hc as [Hi Hk].
    pose proof (api_reach_base_cache _ _ Hr Hi) as Hc.
    unfold base_cache in Hc. injection Hc as Hk2 Hi2.
    unfold get_kernel_base. rewrite Hi2, Hi. congruence.
Qed.

Lemma acquisition_failure_sentinel_aux (fuel : nat) (w w1 : world)
  (ret : kern_return_t) :
  get_kernel_task w = (TaskFail ret, w1) ->
  (forall (addr size : Z) (buf : list byte),
      read_kernel fuel addr size buf w = Some (modulus - 1, buf, w1))
  /\ modulus - 1 <> 0.
Proof.
  intros H. unfold read_kernel. rewrite H, wrap_minus_1.
  pose proof modulus_gt_1. split; [reflexivity | lia].
Qed.

(** C7. When the kernel task cannot be had, [read_kernel] and
    [write_kernel] return -1 converted to [vm_size_t], that is
    [modulus - 1], which is not 0: a call that could not start is told
    apart from one that started and moved no byte.  The world is the one
    [get_kernel_task] left: no transfer was tried. *)
Theorem acquisition_failure_sentinel (fuel : nat) (w w1 : world)
  (ret : kern_return_t) :
  get_kernel_task w = (TaskFail ret, w1) ->
  (forall (addr size : Z) (buf : list byte),
      read_kernel fuel addr size buf w = Some (modulus - 1, buf, w1))
  /\ (forall (addr : Z) (data : list byte) (size : Z),
         write_kernel fuel addr data size w = Some (modulus - 1, w1))
  /\ modulus - 1 <> 0.
Proof.
  intros H. unfold read_kernel, write_kernel. rewrite H, wrap_minus_1.
  pose proof modulus_gt_1. repeat split; lia.
Qed.

(** ** get_kernel_base: the scan and the choice of the offset *)

Lemma skip_regions_scan (k f : nat) (t : Z) (s0 s : scan_state) :
  skip_regions k t s0 = Some s ->
  scan_regions (k + f) t s0 = scan_regions f t s.
Proof.
  revert s0. induction k as [|k IH]; intros s0; cbn [skip_regions Nat.add].
  - now intros [= ->].
  - cbn [scan_regions]. destruct (next_region t s0); try discriminate.
    apply IH.
Qed.

(** From the entry of [get_kernel_base] to the turn of the header loop. *)
Lemma get_kernel_base_scan (k f : nat) (w w1 wm : world) (t : Z)
  (s : scan_state) :
  kbase_initialized w = false ->
  get_kernel_task w = (TaskOk t, w1) ->
  skip_regions k t (scan_start w1) = Some s ->
  next_region t s = RegionMatch wm ->
  get_kernel_base (k + f) w =
  match find_header f t (hdr_start wm) with
  | None => None
  | Some (false, w2) => Some (0, w2)
  | Some (true, w2) => Some (kbase_addr w2, set_kbase_initialized w2)
  end.
Proof.
  intros Hi Hg Hk Hm. unfold get_kernel_base. rewrite Hi, Hg.
  rewrite (skip_regions_scan k f t _ _ Hk).
  destruct f; cbn [scan_regions]; rewrite Hm; reflexivity.
Qed.

(** What one turn of the header loop does once both reads succeeded. *)
Lemma check_headers_both (t : Z) (s : hdr_state) (h1 h2 : list byte)
  (w2 : world) :
  read_both t s = Some (h1, h2, w2) ->
  check_headers t s =
  let X := kbase_addr (h_world s) in
  let b1 := if magic_ok h1 && magic_ok h2 then exec_ok h1 else magic_ok h1 in
  let b2 := if magic_ok h1 && magic_ok h2 then exec_ok h2 else magic_ok h2 in
  if (magic_ok h1 && magic_ok h2) && (b1 && b2) then HdrReturn0 w2
  else if b1 then HdrAccept (set_addr (wrap (X + IMAGE_OFFSET A)) w2)
  else if b2 then HdrAccept (set_addr (wrap (X + 2 * IMAGE_OFFSET A)) w2)
  else HdrRetry {| h_hdr1 := h1; h_hdr2 := h2;
                   h_world := set_addr (wrap (X + 0x100000)) w2 |}.
Proof.
  unfold read_both, check_headers, read_hdr, magic_ok, exec_ok. cbv zeta.
  destruct (ro_ret _ =? KERN_SUCCESS); cbn [andb negb]; [|discriminate].
  destruct (ro_ret _ =? KERN_SUCCESS); cbn [andb negb]; [|discriminate].
  intros [= <- <- <-]. reflexivity.
Qed.

Lemma read_both_trace (t : Z) (s : hdr_state) (h1 h2 : list byte)
  (w2 : world) :
  read_both t s = Some (h1, h2, w2) ->
  let X := kbase_addr (h_world s) in
  let sz := sizeof_mach_hdr A in
  exists o1 o2 : Z,
    trace w2 = trace (h_world s)
               ++ [EvRead t (wrap (X + IMAGE_OFFSET A)) sz KERN_SUCCESS o1;
                   EvRead t (wrap (X + 2 * IMAGE_OFFSET A)) sz KERN_SUCCESS o2].
Proof.
  unfold read_both, read_hdr. cbv zeta.
  set (r1 := vm_read_overwrite E (trace (h_world s)) t _ _).
  set (w1 := log _ (h_world s)).
  set (r2 := vm_read_overwrite E (trace w1) t _ _).
  destruct (ro_ret r1 =? KERN_SUCCESS) eqn:H1; cbn [andb]; [|discriminate].
  destruct (ro_ret r2 =? KERN_SUCCESS) eqn:H2; [|discriminate].
  intros [= <- <- <-]. apply Z.eqb_eq in H1, H2.
  exists (wrap (ro_size r1)), (wrap (ro_size r2)).
  rewrite H2. subst w1. cbn [trace log]. rewrite H1, <- app_assoc.
  reflexivity.
Qed.

Lemma next_region_match (t : Z) (s : scan_state) (wm : world) :
  next_region t s = RegionMatch wm ->
  let r := vm_region_recurse_64 E (trace (s_world s)) t
             (kbase_addr (s_world s)) (s_depth s) (s_count s) in
  rr_ret r = KERN_SUCCESS
  /\ 1024 * 1024 * 1024 < wrap (rr_size r)
  /\ Z.land (rr_protection r) 7 = 0
  /\ kbase_addr wm = wrap (rr_addr r).
Proof.
  unfold next_region. cbv zeta.
  destruct (rr_ret _ =? KERN_SUCCESS) eqn:Hr; cbn [negb]; [|discriminate].
  destruct (_ >? _) eqn:Hs; cbn [andb]; [|discriminate].
  destruct (Z.land _ _ =? 0) eqn:Hp; [|discriminate].
  intros [= <-]. apply Z.eqb_eq in Hr, Hp.
  rewrite Z.gtb_lt in Hs. repeat split; assumption.
Qed.

Lemma skip_regions_keeps (k : nat) (t : Z) (s0 s : scan_state) :
  skip_regions k t s0 = Some s -> keeps_task (s_world s0) (s_world s).
Proof.
  revert s0. induction k as [|k IH]; intros s0; cbn [skip_regions].
  - intros [= ->]. split; reflexivity.
  - pose proof (next_region_keeps t s0) as Hk.
    destruct (next_region t s0) as [|?|s']; try discriminate.
    intros H. apply IH in H. destruct Hk, H. split; congruence.
Qed.

Lemma magic_ok_true (h : list byte) :
  magic_ok h = true <-> hdr_magic A h = MACH_HEADER_MAGIC A.
Proof. apply Z.eqb_eq. Qed.

Lemma magic_ok_false (h : list byte) :
  magic_ok h = false <-> hdr_magic A h <> MACH_HEADER_MAGIC A.
Proof. apply Z.eqb_neq. Qed.

Lemma exec_ok_true (h : list byte) :
  exec_ok h = true <->
  hdr_cputype A h = MACH_TYPE A /\ hdr_filetype A h = MH_EXECUTE.
Proof. unfold exec_ok. now rewrite andb_true_iff, !Z.eqb_eq. Qed.

(** C2. The scan has reached, after [k] other regions, a region over
    1 GiB without any protection bit, at [X]; both header reads of the
    first turn succeed.  If exactly one of the two headers has the expected
    magic, its offset is taken: with a magic that does not match at
    [X + IMAGE_OFFSET] and one that matches at [X + 2 * IMAGE_OFFSET],
    [get_kernel_base] returns [X + 2 * IMAGE_OFFSET] (as a machine word)
    and caches it; in the mirrored case it returns [X + IMAGE_OFFSET]. *)
Theorem locator_accepts_the_single_match (k fuel : nat) (w w1 wm w2 : world)
  (t : Z) (s : scan_state) (h1 h2 : list byte) :
  kbase_initialized w = false ->
  get_kernel_task w = (TaskOk t, w1) ->
  skip_regions k t (scan_start w1) = Some s ->
  next_region t s = RegionMatch wm ->
  read_both t (hdr_start wm) = Some (h1, h2, w2) ->
  let X := kbase_addr wm in
  let O1 := IMAGE_OFFSET A in
  let O2 := 2 * IMAGE_OFFSET A in
  (hdr_magic A h1 <> MACH_HEADER_MAGIC A ->
   hdr_magic A h2 = MACH_HEADER_MAGIC A ->
   get_kernel_base (k + fuel) w
   = Some (wrap (X + O2), set_kbase_initialized (set_addr (wrap (X + O2)) w2)))
  /\ (hdr_magic A h1 = MACH_HEADER_MAGIC A ->
      hdr_magic A h2 <> MACH_HEADER_MAGIC A ->
      get_kernel_base (k + fuel) w
      = Some (wrap (X + O1),
              set_kbase_initialized (set_addr (wrap (X + O1)) w2)))
  /\ (0 <= X + O2 < modulus -> wrap (X + O2) = X + O2).
Proof.
  intros Hi Hg Hk Hm Hb X O1 O2.
  rewrite (get_kernel_base_scan k fuel w w1 wm t s Hi Hg Hk Hm).
  pose proof (check_headers_both _ _ _ _ _ Hb) as Hc. cbv zeta in Hc.
  split; [|split].
  - intros H1 H2. apply magic_ok_false in H1. apply magic_ok_true in H2.
    rewrite H1, H2 in Hc. cbn [andb] in Hc.
    destruct fuel; cbn [find_header]; rewrite Hc; reflexivity.
  - intros H1 H2. apply magic_ok_true in H1. apply magic_ok_false in H2.
    rewrite H1, H2 in Hc. cbn [andb] in Hc.
    destruct fuel; cbn [find_header]; rewrite Hc; reflexivity.
  - apply wrap_small.
Qed.

(** C3. Same situation, but both headers have the expected magic and both
    also have the expected CPU type and the file type [MH_EXECUTE]:
    [get_kernel_base] returns 0 and caches nothing; it does not pick one
    of the two. *)
Theorem locator_refuses_two_full_matches (k fuel : nat)
  (w w1 wm w2 : world) (t : Z) (s : scan_state) (h1 h2 : list byte) :
  kbase_initialized w = false ->
  get_kernel_task w = (TaskOk t, w1) ->
  skip_regions k t (scan_start w1) = Some s ->
  next_region t s = RegionMatch wm ->
  read_both t (hdr_start wm) = Some (h1, h2, w2) ->
  hdr_magic A h1 = MACH_HEADER_MAGIC A ->
  hdr_magic A h2 = MACH_HEADER_MAGIC A ->
  hdr_cputype A h1 = MACH_TYPE A -> hdr_filetype A h1 = MH_EXECUTE ->
  hdr_cputype A h2 = MACH_TYPE A -> hdr_filetype A h2 = MH_EXECUTE ->
  get_kernel_base (k + fuel) w = Some (0, w2)
  /\ kbase_initialized w2 = false.
Proof.
  intros Hi Hg Hk Hm Hb M1 M2 C1 F1 C2 F2.
  rewrite (get_kernel_base_scan k fuel w w1 wm t s Hi Hg Hk Hm).
  pose proof (check_headers_both _ _ _ _ _ Hb) as Hc. cbv zeta in Hc.
  apply magic_ok_true in M1, M2.
  assert (E1 : exec_ok h1 = true) by (apply exec_ok_true; auto).
  assert (E2 : exec_ok h2 = true) by (apply exec_ok_true; auto).
  rewrite M1, M2, E1, E2 in Hc. cbn [andb] in Hc.
  assert (Hf : forall f, find_header f t (hdr_start wm) = Some (false, w2))
    by (intros f; destruct f; cbn [find_header]; rewrite Hc; reflexivity).
  rewrite Hf. split; [reflexivity|].
  pose proof (find_header_keeps 0 t _ _ _ (Hf 0%nat)) as [_ K1].
  pose proof (next_region_keeps t s) as K2. rewrite Hm in K2.
  destruct K2 as [_ K2].
  pose proof (skip_regions_keeps _ _ _ _ Hk) as [_ K3].
  pose proof (get_kernel_task_base_cache _ _ _ Hg) as K4.
  unfold base_cache in K4. injection K4 as _ K4.
  cbn in K1, K3. congruence.
Qed.

(** C4. Same situation, but neither header has the expected magic: the
    turn does not return, it moves [addr] on by 0x100000 and the header
    loop takes its next turn there.  If at that address both reads succeed
    and exactly one header has the expected magic, [get_kernel_base]
    returns that address plus the offset of the match, after exactly two
    turns of the header loop: four header reads, at [X + IMAGE_OFFSET],
    [X + 2 * IMAGE_OFFSET] and at the same offsets one stride further. *)
Theorem locator_retries_one_stride_further (k fuel : nat)
  (w w1 wm w2 : world) (t : Z) (s : scan_state) (h1 h2 : list byte) :
  kbase_initialized w = false ->
  get_kernel_task w = (TaskOk t, w1) ->
  skip_regions k t (scan_start w1) = Some s ->
  next_region t s = RegionMatch wm ->
  read_both t (hdr_start wm) = Some (h1, h2, w2) ->
  hdr_magic A h1 <> MACH_HEADER_MAGIC A ->
  hdr_magic A h2 <> MACH_HEADER_MAGIC A ->
  let X := kbase_addr wm in
  let X' := wrap (X + 0x100000) in
  let s' := {| h_hdr1 := h1; h_hdr2 := h2; h_world := set_addr X' w2 |} in
  check_headers t (hdr_start wm) = HdrRetry s'
  /\ find_header (S fuel) t (hdr_start wm) = find_header fuel t s'
  /\ get_kernel_base (k + S fuel) w
     = match find_header fuel t s' with
       | None => None
       | Some (false, w') => Some (0, w')
       | Some (true, w') => Some (kbase_addr w', set_kbase_initialized w')
       end
  /\ (forall (g1 g2 : list byte) (w4 : world),
         read_both t s' = Some (g1, g2, w4) ->
         xorb (magic_ok g1) (magic_ok g2) = true ->
         let off := if magic_ok g1 then IMAGE_OFFSET A
                    else 2 * IMAGE_OFFSET A in
         let sz := sizeof_mach_hdr A in
         get_kernel_base (k + S fuel) w
         = Some (wrap (X' + off),
                 set_kbase_initialized (set_addr (wrap (X' + off)) w4))
         /\ exists o1 o2 o3 o4 : Z,
             trace w4 = trace wm
               ++ [EvRead t (wrap (X + IMAGE_OFFSET A)) sz KERN_SUCCESS o1;
                   EvRead t (wrap (X + 2 * IMAGE_OFFSET A)) sz KERN_SUCCESS o2;
                   EvRead t (wrap (X' + IMAGE_OFFSET A)) sz KERN_SUCCESS o3;
                   EvRead t (wrap (X' + 2 * IMAGE_OFFSET A)) sz
                          KERN_SUCCESS o4]).
Proof.
  intros Hi Hg Hk Hm Hb M1 M2 X X' s'.
  pose proof (check_headers_both _ _ _ _ _ Hb) as Hc. cbv zeta in Hc.
  apply magic_ok_false in M1, M2.
  rewrite M1, M2 in Hc. cbn [andb] in Hc.
  change (kbase_addr (h_world (hdr_start wm))) with X in Hc.
  fold X' in Hc. fold s' in Hc.
  assert (Hstep : find_header (S fuel) t (hdr_start wm)
                  = find_header fuel t s')
    by (cbn [find_header]; rewrite Hc; reflexivity).
  assert (Hbase : get_kernel_base (k + S fuel) w
     = match find_header fuel t s' with
       | None => None
       | Some (false, w') => Some (0, w')
       | Some (true, w') => Some (kbase_addr w', set_kbase_initialized w')
       end).
  { rewrite (get_kernel_base_scan k (S fuel) w w1 wm t s Hi Hg Hk Hm).
    rewrite Hstep. reflexivity. }
  split; [exact Hc|]. split; [exact Hstep|]. split; [exact Hbase|].
  intros g1 g2 w4 Hb' Hx off sz.
  pose proof (check_headers_both _ _ _ _ _ Hb') as Hc'. cbv zeta in Hc'.
  change (kbase_addr (h_world s')) with X' in Hc'.
  split.
  - rewrite Hbase. subst off.
    destruct (magic_ok g1), (magic_ok g2); try discriminate;
      cbn [andb] in Hc';
      destruct fuel; cbn [find_header]; rewrite Hc'; reflexivity.
  - destruct (read_both_trace _ _ _ _ _ Hb) as (o1 & o2 & T1).
    destruct (read_both_trace _ _ _ _ _ Hb') as (o3 & o4 & T2).
    exists o1, o2, o3, o4. rewrite T2. cbn [h_world s' set_addr trace].
    rewrite T1. cbn [hdr_start h_world]. rewrite <- app_assoc.
    reflexivity.
Qed.

(** ** read_kernel and write_kernel: the chunks *)

Lemma chunk_size_bounds (rem : Z) :
  0 < rem -> 0 < chunk_size rem <= MAX_CHUNK_SIZE /\ chunk_size rem <= rem.
Proof.
  unfold chunk_size, MAX_CHUNK_SIZE. intros H.
  destruct (rem >? 4095) eqn:Hc; [rewrite Z.gtb_lt in Hc | rewrite Z.gtb_ltb, Z.ltb_ge in Hc]; lia.
Qed.

Lemma total_moved_cons (e : event) (evs : list event) :
  total_moved (e :: evs) = moved e + total_moved evs.
Proof. reflexivity. Qed.

Lemma wrap_add_l (x y : Z) : wrap (wrap x + y) = wrap (x + y).
Proof.
  unfold wrap. apply Z.add_mod_idemp_l. pose proof modulus_gt_1. lia.
Qed.

(** What a turn that goes round again has done. *)
Lemma read_chunk_again (t end_ : Z) (s s1 : rd_state) :
  read_chunk t end_ s = RdAgain s1 ->
  let c := chunk_size (rd_remainder s) in
  let r := vm_read_overwrite E (trace (rd_world s)) t (rd_addr s) c in
  let out := wrap (ro_size r) in
  rd_addr s < end_ /\ ro_ret r = KERN_SUCCESS /\ out <> 0
  /\ s1 = {| rd_addr := wrap (rd_addr s + out);
             rd_remainder := wrap (rd_remainder s - out);
             rd_bytes_read := wrap (rd_bytes_read s + out);
             rd_buf := store (rd_buf s) (Z.to_nat (rd_bytes_read s))
                             (ro_data r);
             rd_world := log (EvRead t (rd_addr s) c (ro_ret r) out)
                             (rd_world s) |}.
Proof.
  unfold read_chunk. cbv zeta.
  destruct (rd_addr s <? end_) eqn:Ha; [|discriminate].
  destruct (ro_ret _ =? KERN_SUCCESS) eqn:Hr; cbn [negb orb]; [|discriminate].
  destruct (wrap _ =? 0) eqn:Ho; [discriminate|].
  intros [= <-]. apply Z.ltb_lt in Ha. apply Z.eqb_eq in Hr.
  apply Z.eqb_neq in Ho. repeat split; assumption.
Qed.

(** What a turn whose chunk fails or moves nothing has done. *)
Lemma read_chunk_break (t end_ : Z) (s : rd_state) :
  let c := chunk_size (rd_remainder s) in
  let r := vm_read_overwrite E (trace (rd_world s)) t (rd_addr s) c in
  rd_addr s < end_ ->
  ro_ret r <> KERN_SUCCESS \/ wrap (ro_size r) = 0 ->
  read_chunk t end_ s
  = RdBreak {| rd_addr := rd_addr s; rd_remainder := rd_remainder s;
               rd_bytes_read := rd_bytes_read s;
               rd_buf := store (rd_buf s) (Z.to_nat (rd_bytes_read s))
                               (ro_data r);
               rd_world := log (EvRead t (rd_addr s) c (ro_ret r)
                                       (wrap (ro_size r)))
                               (rd_world s) |}.
Proof.
  intros c r Ha Hf. unfold read_chunk. cbv zeta. fold c. fold r.
  apply Z.ltb_lt in Ha. rewrite Ha.
  destruct Hf as [Hf|Hf].
  - apply Z.eqb_neq in Hf. now rewrite Hf.
  - rewrite Hf. cbn [Z.eqb]. now rewrite orb_true_r.
Qed.

Lemma read_prefix_chunks (k f : nat) (t end_ : Z) (s0 s : rd_state) :
  read_prefix k t end_ s0 = Some s ->
  read_chunks (k + f) t end_ s0 = read_chunks f t end_ s.
Proof.
  revert s0. induction k as [|k IH]; intros s0; cbn [read_prefix Nat.add].
  - now intros [= ->].
  - cbn [read_chunks]. destruct (read_chunk t end_ s0); try discriminate.
    apply IH.
Qed.

(** The [k] chunks of a prefix, as the trace has them, add up to
    [bytes_read]; if none reports more than was asked for, the sum stays
    within the requested size. *)
Lemma read_prefix_sum (k : nat) (t end_ : Z) (s0 s : rd_state) :
  read_prefix k t end_ s0 = Some s ->
  exists evs : list event,
    trace (rd_world s) = trace (rd_world s0) ++ evs
    /\ length evs = k
    /\ wrap (rd_bytes_read s) = wrap (rd_bytes_read s0 + total_moved evs)
    /\ (0 <= rd_bytes_read s0 < modulus -> 0 <= rd_bytes_read s < modulus)
    /\ (0 <= rd_remainder s0 < modulus -> Forall within_request evs ->
        0 <= total_moved evs <= rd_remainder s0
        /\ rd_remainder s = rd_remainder s0 - total_moved evs).
Proof.
  revert s0. induction k as [|k IH]; intros s0; cbn [read_prefix].
  - intros [= ->]. exists []. rewrite app_nil_r. cbn.
    rewrite Z.add_0_r. repeat split; auto; lia.
  - destruct (read_chunk t end_ s0) as [| |s1] eqn:Hc; try discriminate.
    intros Hp. apply read_chunk_again in Hc. cbv zeta in Hc.
    destruct Hc as (Ha & Hr & Ho & ->).
    destruct (IH _ Hp) as (evs & Ht & Hl & Hs & Hb & Hq).
    cbn [rd_world rd_bytes_read rd_remainder log trace] in Ht, Hs, Hb, Hq.
    set (c := chunk_size (rd_remainder s0)) in *.
    set (r := vm_read_overwrite E (trace (rd_world s0)) t (rd_addr s0) c) in *.
    set (out := wrap (ro_size r)) in *.
    exists (EvRead t (rd_addr s0) c (ro_ret r) out :: evs).
    assert (Hm : moved (EvRead t (rd_addr s0) c (ro_ret r) out) = out)
      by (cbn [moved]; rewrite Hr; reflexivity).
    split; [|split; [|split; [|split]]].
    + rewrite Ht, <- app_assoc. reflexivity.
    + cbn [length]. now rewrite Hl.
    + rewrite Hs, total_moved_cons, Hm, wrap_add_l. f_equal. lia.
    + intros _. apply Hb. apply wrap_range.
    + intros Hrem Hall. rewrite total_moved_cons, Hm.
      inversion Hall as [|e l Hw Hall' Heq]; subst e l.
      cbn [within_request] in Hw.
      pose proof (wrap_range (ro_size r)) as Hout. fold out in Hout.
      assert (Hpos : 0 < rd_remainder s0).
      { destruct (Z_lt_le_dec 0 (rd_remainder s0)) as [|Hle]; [assumption|].
        assert (rd_remainder s0 = 0) by lia.
        unfold c, chunk_size, MAX_CHUNK_SIZE in Hw.
        replace (rd_remainder s0) with 0 in Hw by lia. cbn in Hw. lia. }
      pose proof (chunk_size_bounds _ Hpos) as [_ Hcs]. fold c in Hcs.
      assert (Hw1 : wrap (rd_remainder s0 - out) = rd_remainder s0 - out)
        by (apply wrap_small; lia).
      rewrite Hw1 in Hq.
      destruct Hq as [Hq1 Hq2]; [lia | assumption |]. lia.
Qed.

Lemma chunk_size_le (rem : Z) :
  0 <= rem -> 0 <= chunk_size rem <= rem /\ chunk_size rem <= MAX_CHUNK_SIZE.
Proof.
  unfold chunk_size, MAX_CHUNK_SIZE. intros H.
  destruct (rem >? 4095) eqn:Hc;
    [rewrite Z.gtb_lt in Hc | rewrite Z.gtb_ltb, Z.ltb_ge in Hc]; lia.
Qed.

Lemma write_chunk_again (t end_ : Z) (data : list byte) (s s1 : wr_state) :
  write_chunk t end_ data s = WrAgain s1 ->
  let c := chunk_size (wr_remainder s) in
  let chunk := firstn (Z.to_nat c)
                      (skipn (Z.to_nat (wr_bytes_written s)) data) in
  let ret := vm_write E (trace (wr_world s)) t (wr_addr s) chunk c in
  wr_addr s < end_ /\ ret = KERN_SUCCESS
  /\ s1 = {| wr_addr := wrap (wr_addr s + c);
             wr_remainder := wrap (wr_remainder s - c);
             wr_bytes_written := wrap (wr_bytes_written s + c);
             wr_world := log (EvWrite t (wr_addr s) c ret) (wr_world s) |}.
Proof.
  unfold write_chunk. cbv zeta.
  destruct (wr_addr s <? end_) eqn:Ha; [|discriminate].
  destruct (vm_write _ _ _ _ _ _ =? KERN_SUCCESS) eqn:Hr; cbn [negb];
    [|discriminate].
  intros [= <-]. apply Z.ltb_lt in Ha. apply Z.eqb_eq in Hr.
  repeat split; assumption.
Qed.

Lemma write_chunk_break (t end_ : Z) (data : list byte) (s : wr_state) :
  let c := chunk_size (wr_remainder s) in
  let chunk := firstn (Z.to_nat c)
                      (skipn (Z.to_nat (wr_bytes_written s)) data) in
  let ret := vm_write E (trace (wr_world s)) t (wr_addr s) chunk c in
  wr_addr s < end_ ->
  ret <> KERN_SUCCESS ->
  write_chunk t end_ data s
  = WrBreak {| wr_addr := wr_addr s; wr_remainder := wr_remainder s;
               wr_bytes_written := wr_bytes_written s;
               wr_world := log (EvWrite t (wr_addr s) c ret) (wr_world s) |}.
Proof.
  intros c chunk ret Ha Hf. unfold write_chunk. cbv zeta.
  fold c. fold chunk. fold ret.
  apply Z.ltb_lt in Ha. rewrite Ha.
  apply Z.eqb_neq in Hf. now rewrite Hf.
Qed.

Lemma write_prefix_chunks (k f : nat) (t end_ : Z) (data : list byte)
  (s0 s : wr_state) :
  write_prefix k t end_ data s0 = Some s ->
  write_chunks (k + f) t end_ data s0 = write_chunks f t end_ data s.
Proof.
  revert s0. induction k as [|k IH]; intros s0; cbn [write_prefix Nat.add].
  - now intros [= ->].
  - cbn [write_chunks].
    destruct (write_chunk t end_ data s0); try discriminate.
    apply IH.
Qed.

Lemma write_prefix_sum (k : nat) (t end_ : Z) (data : list byte)
  (s0 s : wr_state) :
  write_prefix k t end_ data s0 = Some s ->
  exists evs : list event,
    trace (wr_world s) = trace (wr_world s0) ++ evs
    /\ length evs = k
    /\ wrap (wr_bytes_written s)
       = wrap (wr_bytes_written s0 + total_moved evs)
    /\ (0 <= wr_bytes_written s0 < modulus ->
        0 <= wr_bytes_written s < modulus)
    /\ (0 <= wr_remainder s0 < modulus ->
        0 <= total_moved evs <= wr_remainder s0
        /\ wr_remainder s = wr_remainder s0 - total_moved evs).
Proof.
  revert s0. induction k as [|k IH]; intros s0; cbn [write_prefix].
  - intros [= ->]. exists []. rewrite app_nil_r. cbn.
    rewrite Z.add_0_r. repeat split; auto; lia.
  - destruct (write_chunk t end_ data s0) as [| |s1] eqn:Hc;
      try discriminate.
    intros Hp. apply write_chunk_again in Hc. cbv zeta in Hc.
    destruct Hc as (Ha & Hr & ->).
    destruct (IH _ Hp) as (evs & Ht & Hl & Hs & Hb & Hq).
    cbn [wr_world wr_bytes_written wr_remainder log trace] in Ht, Hs, Hb, Hq.
    set (c := chunk_size (wr_remainder s0)) in *.
    set (ret := vm_write E (trace (wr_world s0)) t (wr_addr s0) _ c) in *.
    exists (EvWrite t (wr_addr s0) c ret :: evs).
    assert (Hm : moved (EvWrite t (wr_addr s0) c ret) = c)
      by (cbn [moved]; rewrite Hr; reflexivity).
    split; [|split; [|split; [|split]]].
    + rewrite Ht, <- app_assoc. reflexivity.
    + cbn [length]. now rewrite Hl.
    + rewrite Hs, total_moved_cons, Hm, wrap_add_l. f_equal. lia.
    + intros _. apply Hb. apply wrap_range.
    + intros Hrem. rewrite total_moved_cons, Hm.
      assert (Hcs : 0 <= c <= wr_remainder s0)
        by (apply chunk_size_le; lia).
      assert (Hw1 : wrap (wr_remainder s0 - c) = wr_remainder s0 - c)
        by (apply wrap_small; lia).
      rewrite Hw1 in Hq. destruct Hq as [Hq1 Hq2]; [lia|]. lia.
Qed.

(** C6. [k] chunks were moved and the next one is due.  If that chunk
    fails ([read_kernel] and [write_kernel]) or reports that it read
    nothing ([read_kernel]; [vm_write] reports no length), the loop is
    left at once and the function returns normally the sum of what the
    [k] chunks before moved, whatever remains to be moved.  The sum is the
    one of the machine word; it is the exact sum when the requested size is
    a machine word and no read reported more than it was asked for. *)
Theorem partial_transfer_returns_bytes_so_far :
  (forall (k fuel : nat) (addr size : Z) (buf : list byte) (w w1 : world)
          (t : Z) (s : rd_state),
      get_kernel_task w = (TaskOk t, w1) ->
      let end_ := wrap (addr + size) in
      read_prefix k t end_ (rd_start addr size buf w1) = Some s ->
      rd_addr s < end_ ->
      let c := chunk_size (rd_remainder s) in
      let r := vm_read_overwrite E (trace (rd_world s)) t (rd_addr s) c in
      ro_ret r <> KERN_SUCCESS \/ wrap (ro_size r) = 0 ->
      exists evs : list event,
        trace (rd_world s) = trace w1 ++ evs
        /\ length evs = k
        /\ read_kernel (k + fuel) addr size buf w
           = Some (wrap (total_moved evs),
                   store (rd_buf s) (Z.to_nat (rd_bytes_read s)) (ro_data r),
                   log (EvRead t (rd_addr s) c (ro_ret r) (wrap (ro_size r)))
                       (rd_world s))
        /\ (0 <= size < modulus -> Forall within_request evs ->
            wrap (total_moved evs) = total_moved evs))
  /\ (forall (k fuel : nat) (addr : Z) (data : list byte) (size : Z)
             (w w1 : world) (t : Z) (s : wr_state),
         get_kernel_task w = (TaskOk t, w1) ->
         let end_ := wrap (addr + size) in
         write_prefix k t end_ data (wr_start addr size w1) = Some s ->
         wr_addr s < end_ ->
         let c := chunk_size (wr_remainder s) in
         let chunk := firstn (Z.to_nat c)
                             (skipn (Z.to_nat (wr_bytes_written s)) data) in
         let ret := vm_write E (trace (wr_world s)) t (wr_addr s) chunk c in
         ret <> KERN_SUCCESS ->
         exists evs : list event,
           trace (wr_world s) = trace w1 ++ evs
           /\ length evs = k
           /\ write_kernel (k + fuel) addr data size w
              = Some (wrap (total_moved evs),
                      log (EvWrite t (wr_addr s) c ret) (wr_world s))
           /\ (0 <= size < modulus ->
               wrap (total_moved evs) = total_moved evs)).
Proof.
  pose proof modulus_gt_1 as Hmod. split.
  - intros k fuel addr size buf w w1 t s Hg end_ Hp Ha c r Hf.
    destruct (read_prefix_sum _ _ _ _ _ Hp) as (evs & Ht & Hl & Hs & Hb & Hq).
    cbn [rd_start rd_world rd_bytes_read rd_remainder] in Ht, Hs, Hb, Hq.
    exists evs. split; [exact Ht|]. split; [exact Hl|]. split.
    + unfold read_kernel. rewrite Hg. fold end_.
      rewrite (read_prefix_chunks k fuel t end_ _ _ Hp).
      pose proof (read_chunk_break t end_ s Ha Hf) as Hbrk.
      assert (Hbw : rd_bytes_read s = wrap (total_moved evs)).
      { rewrite <- (wrap_small (rd_bytes_read s)) by (apply Hb; lia).
        exact Hs. }
      destruct fuel; cbn [read_chunks]; rewrite Hbrk;
        cbn [rd_bytes_read rd_buf rd_world];
        rewrite <- Hbw; reflexivity.
    + intros Hsz Hall. apply wrap_small.
      destruct (Hq Hsz Hall) as [Hq1 _]. lia.
  - intros k fuel addr data size w w1 t s Hg end_ Hp Ha c chunk ret Hf.
    destruct (write_prefix_sum _ _ _ _ _ _ Hp)
      as (evs & Ht & Hl & Hs & Hb & Hq).
    cbn [wr_start wr_world wr_bytes_written wr_remainder] in Ht, Hs, Hb, Hq.
    exists evs. split; [exact Ht|]. split; [exact Hl|]. split.
    + unfold write_kernel. rewrite Hg. fold end_.
      rewrite (write_prefix_chunks k fuel t end_ data _ _ Hp).
      pose proof (write_chunk_break t end_ data s Ha Hf) as Hbrk.
      assert (Hbw : wr_bytes_written s = wrap (total_moved evs)).
      { rewrite <- (wrap_small (wr_bytes_written s)) by (apply Hb; lia).
        exact Hs. }
      destruct fuel; cbn [write_chunks]; rewrite Hbrk;
        cbn [wr_bytes_written wr_world];
        rewrite <- Hbw; reflexivity.
    + intros Hsz. apply wrap_small.
      destruct (Hq Hsz) as [Hq1 _]. lia.
Qed.

(** *** When every chunk is moved in full *)

Lemma read_chunk_ok (t end_ : Z) (s : rd_state) :
  let c := chunk_size (rd_remainder s) in
  let r := vm_read_overwrite E (trace (rd_world s)) t (rd_addr s) c in
  let out := wrap (ro_size r) in
  rd_addr s < end_ -> ro_ret r = KERN_SUCCESS -> out <> 0 ->
  read_chunk t end_ s
  = RdAgain {| rd_addr := wrap (rd_addr s + out);
               rd_remainder := wrap (rd_remainder s - out);
               rd_bytes_read := wrap (rd_bytes_read s + out);
               rd_buf := store (rd_buf s) (Z.to_nat (rd_bytes_read s))
                               (ro_data r);
               rd_world := log (EvRead t (rd_addr s) c (ro_ret r) out)
                               (rd_world s) |}.
Proof.
  intros c r out Ha Hr Ho. unfold read_chunk. cbv zeta.
  fold c. fold r. fold out.
  apply Z.ltb_lt in Ha. rewrite Ha. rewrite Hr at 1.
  apply Z.eqb_neq in Ho. rewrite Ho. reflexivity.
Qed.




Lemma chunks_needed (size : Z) :
  0 <= size ->
  let n := Z.to_nat ((size + MAX_CHUNK_SIZE - 1) / MAX_CHUNK_SIZE) in
  MAX_CHUNK_SIZE * (Z.of_nat n - 1) < size <= MAX_CHUNK_SIZE * Z.of_nat n.
Proof.
  unfold MAX_CHUNK_SIZE. intros H. cbv zeta.
  assert (Hd : size + 4095 - 1
               = 4095 * ((size + 4095 - 1) / 4095) + (size + 4095 - 1) mod 4095)
    by (apply Z.div_mod; lia).
  assert (Hm : 0 <= (size + 4095 - 1) mod 4095 < 4095)
    by (apply Z.mod_pos_bound; lia).
  assert (0 <= (size + 4095 - 1) / 4095) by (apply Z.div_pos; lia).
  rewrite Z2Nat.id by assumption. lia.
Qed.


(** *** The loops end *)

Lemma write_chunks_returns (t end_ : Z) (data : list byte) (n : nat) :
  end_ < modulus ->
  forall s : wr_state,
    0 <= wr_addr s -> 0 <= wr_remainder s ->
    wr_addr s + wr_remainder s = end_ ->
    (Z.to_nat (wr_remainder s) <= n)%nat ->
    exists s' : wr_state, write_chunks n t end_ data s = Some s'.
Proof.
  intros Hend. induction n as [|n IH]; intros s Ha Hrem Hsum Hn;
    cbn [write_chunks];
    destruct (write_chunk t end_ data s) as [| s1 | s1] eqn:Hc;
    try (eexists; reflexivity).
  - apply write_chunk_again in Hc. destruct Hc as (Hlt & _). lia.
  - apply write_chunk_again in Hc. cbv zeta in Hc.
    destruct Hc as (Hlt & Hr & ->).
    set (c := chunk_size (wr_remainder s)) in *.
    assert (Hpos : 0 < wr_remainder s) by lia.
    destruct (chunk_size_bounds _ Hpos) as [Hc1 Hc2]. fold c in Hc1, Hc2.
    apply IH; cbn [wr_addr wr_remainder];
      rewrite ?wrap_small by lia; lia.
Qed.

Lemma write_kernel_returns (fuel : nat) (addr : Z) (data : list byte)
  (size : Z) (w : world) :
  0 <= addr < modulus -> 0 <= size < modulus ->
  exists r, write_kernel (Z.to_nat size + fuel) addr data size w = Some r.
Proof.
  intros Ha Hs. unfold write_kernel.
  destruct (get_kernel_task w) as [[t|ret] w1]; [|eexists; reflexivity].
  destruct (Z_lt_le_dec (addr + size) modulus) as [Hlt|Hge].
  - rewrite (wrap_small (addr + size)) by lia.
    destruct (write_chunks_returns t (addr + size) data
                (Z.to_nat size + fuel) Hlt (wr_start addr size w1))
      as [s' Hs'];
      cbn [wr_start wr_addr wr_remainder]; try lia.
    rewrite Hs'. eexists; reflexivity.
  - assert (Hw : wrap (addr + size) = addr + size - modulus).
    { unfold wrap. symmetry. apply Z.mod_unique with (q := 1); lia. }
    assert (Hx : write_chunk t (wrap (addr + size)) data
                   (wr_start addr size w1) = WrExit).
    { unfold write_chunk. cbn [wr_start wr_addr].
      assert (Hf : (addr <? wrap (addr + size)) = false)
        by (apply Z.ltb_ge; lia).
      now rewrite Hf. }
    destruct (Z.to_nat size + fuel)%nat; cbn [write_chunks]; rewrite Hx;
      eexists; reflexivity.
Qed.

(** ** find_bytes_kern *)

Lemma is_prefix_spec (little l : list byte) :
  is_prefix little l = true <-> exists post, l = little ++ post.
Proof.
  revert l. induction little as [|p little IH]; intros l; cbn [is_prefix].
  - split; [intros _; now exists l | reflexivity].
  - destruct l as [|x l].
    + split; [discriminate | intros [post H]; discriminate].
    + rewrite andb_true_iff, IH. split.
      * intros [Hb [post ->]]. apply Byte.byte_dec_bl in Hb. subst x.
        now exists post.
      * intros [post H]. cbn [app] in H. injection H as -> ->.
        split; [now apply Byte.byte_dec_lb | now exists post].
Qed.

Lemma search_spec (little l : list byte) (k : nat) :
  little <> [] ->
  match search little l k with
  | Some j =>
      exists i : nat, j = (k + i)%nat /\ occurs_at l little i
                      /\ forall i', (i' < i)%nat -> ~ occurs_at l little i'
  | None => forall i, ~ occurs_at l little i
  end.
Proof.
  intros Hne. revert k. induction l as [|x l IH]; intros k; cbn [search].
  - destruct (is_prefix little []) eqn:Hp.
    + apply is_prefix_spec in Hp. destruct Hp as [post Hp].
      destruct little; [contradiction | discriminate].
    + intros i [Hi [post Hs]]. cbn [length] in Hi.
      assert (i = 0%nat) by lia. subst i. cbn [skipn] in Hs.
      destruct little; [contradiction | discriminate].
  - destruct (is_prefix little (x :: l)) eqn:Hp.
    + exists 0%nat. split; [lia|]. split.
      * split; [cbn; lia|]. now apply is_prefix_spec.
      * intros i' Hi'. lia.
    + specialize (IH (S k)).
      assert (Hno : ~ occurs_at (x :: l) little 0).
      { intros [_ Hs]. cbn [skipn] in Hs. apply is_prefix_spec in Hs.
        congruence. }
      assert (Hshift : forall i, occurs_at (x :: l) little (S i)
                                 <-> occurs_at l little i).
      { intros i. unfold occurs_at. cbn [length skipn].
        split; intros [Hi Hs]; (split; [lia | exact Hs]). }
      destruct (search little l (S k)) as [j|].
      * destruct IH as (i & -> & Ho & Hmin).
        exists (S i). split; [lia|]. split; [now apply Hshift|].
        intros [|i'] Hi'; [exact Hno|].
        rewrite Hshift. apply Hmin. lia.
      * intros [|i]; [exact Hno|]. rewrite Hshift. apply IH.
Qed.

(** For a pattern that is not empty, [memmem] finds the first place where
    it lies, and fails only when it lies nowhere. *)
Lemma memmem_first (big little : list byte) :
  little <> [] ->
  match memmem big little with
  | Some k => occurs_at big little k
              /\ forall j, (j < k)%nat -> ~ occurs_at big little j
  | None => forall j, ~ occurs_at big little j
  end.
Proof.
  intros Hne. unfold memmem.
  destruct little as [|p little]; [contradiction|].
  pose proof (search_spec (p :: little) big 0 Hne) as H.
  destruct (search (p :: little) big 0) as [j|]; [|exact H].
  destruct H as (i & -> & Ho & Hmin). cbn [Nat.add]. auto.
Qed.

Lemma occurs_at_nil (big : list byte) : occurs_at big [] 0.
Proof. split; [lia|]. now exists big. Qed.

Lemma memmem_least (big little : list byte) (k : nat) :
  little <> [] \/ memmem_empty A = true ->
  occurs_at big little k ->
  (forall j, (j < k)%nat -> ~ occurs_at big little j) ->
  memmem big little = Some k.
Proof.
  intros Hne Ho Hmin.
  destruct little as [|p little].
  - destruct Hne as [Hne|Hne]; [contradiction|].
    unfold memmem. rewrite Hne. f_equal.
    destruct k as [|k]; [reflexivity|].
    exfalso. apply (Hmin 0%nat); [lia | apply occurs_at_nil].
  - assert (Hp : p :: little <> []) by discriminate.
    pose proof (memmem_first big (p :: little) Hp) as H.
    destruct (memmem big (p :: little)) as [k'|].
    + destruct H as [Ho' Hmin']. f_equal.
      destruct (Nat.lt_trichotomy k' k) as [Hlt|[Heq|Hgt]]; [|assumption|].
      * exfalso. exact (Hmin _ Hlt Ho').
      * exfalso. exact (Hmin' _ Hgt Ho).
    + exfalso. exact (H _ Ho).
Qed.

Lemma memmem_absent (big little : list byte) :
  little <> [] \/ memmem_empty A = true ->
  (forall j, ~ occurs_at big little j) ->
  memmem big little = None.
Proof.
  intros Hne Hno.
  destruct little as [|p little].
  - exfalso. exact (Hno 0%nat (occurs_at_nil big)).
  - assert (Hp : p :: little <> []) by discriminate.
    pose proof (memmem_first big (p :: little) Hp) as H.
    destruct (memmem big (p :: little)) as [k|]; [|reflexivity].
    destruct H as [Ho _]. exfalso. exact (Hno _ Ho).
Qed.

Lemma store_length (buf : list byte) (off : nat) (data : list byte) :
  length (store buf off data) = length buf.
Proof.
  unfold store. rewrite !length_app, !length_firstn, length_skipn. lia.
Qed.

Lemma read_chunks_buf_length (fuel : nat) (t end_ : Z) (s s' : rd_state) :
  read_chunks fuel t end_ s = Some s' ->
  length (rd_buf s') = length (rd_buf s).
Proof.
  revert s. induction fuel as [|f IH]; intros s; cbn [read_chunks];
    unfold read_chunk;
    destruct (rd_addr s <? end_);
    try destruct (negb _ || _);
    try (intros [= <-]; cbn [rd_buf]; try apply store_length; reflexivity);
    try discriminate.
  intros H. apply IH in H. cbn [rd_buf] in H. now rewrite store_length in H.
Qed.

Lemma read_kernel_buf_length (fuel : nat) (addr size : Z)
  (buf buf' : list byte) (w w' : world) (n : Z) :
  read_kernel fuel addr size buf w = Some (n, buf', w') ->
  length buf' = length buf.
Proof.
  unfold read_kernel. destruct (get_kernel_task w) as [[t|ret] w1].
  - destruct (read_chunks _ _ _ _) as [s|] eqn:Hrd; [|discriminate].
    intros [= <- <- <-]. now apply read_chunks_buf_length in Hrd.
  - now intros [= <- <- <-].
Qed.

Lemma fresh_bytes_length (h : list event) (base : nat) (n : Z) :
  length (fresh_bytes E h base n) = Z.to_nat n.
Proof. unfold fresh_bytes. now rewrite length_map, length_seq. Qed.

(** The function, once the buffer is there and the read has returned. *)
Lemma find_bytes_kern_after_read (fuel : nat) (start end_ : Z)
  (bytes : list byte) (w w1 : world) (got : Z) (buf' : list byte) :
  let n := wrap (end_ - start) in
  malloc E (trace w) n = true ->
  read_kernel fuel start n (fresh_bytes E (trace w) 0 n)
              (log (EvMalloc n true) w) = Some (got, buf', w1) ->
  length buf' = Z.to_nat n
  /\ find_bytes_kern fuel start end_ bytes w
     = Some (if got =? 0 then 0
             else match memmem buf' bytes with
                  | Some k => wrap (start + Z.of_nat k)
                  | None => 0
                  end,
             log EvFree w1).
Proof.
  intros n Hm Hr.
  assert (Hl : length buf' = Z.to_nat n).
  { apply read_kernel_buf_length in Hr. now rewrite fresh_bytes_length in Hr. }
  split; [exact Hl|].
  unfold find_bytes_kern. fold n. rewrite Hm, Hr.
  rewrite firstn_all2 by lia.
  destruct (got =? 0); cbn [negb]; [reflexivity|].
  destruct (memmem buf' bytes); [|reflexivity].
  do 3 f_equal. lia.
Qed.

(** C10. When the buffer was allocated and the kernel task cannot be had,
    [read_kernel] returns [modulus - 1], which is not 0, so
    [find_bytes_kern] does not stop there: it searches the buffer, which
    holds what the allocation left in it (no read wrote to it), and
    returns [start + k] if the pattern happens to lie there at [k]. *)
Theorem find_bytes_kern_searches_unread_buffer (fuel : nat) (start end_ : Z)
  (bytes : list byte) (w w1 : world) (ret : kern_return_t) :
  let n := wrap (end_ - start) in
  let buf := fresh_bytes E (trace w) 0 n in
  malloc E (trace w) n = true ->
  get_kernel_task (log (EvMalloc n true) w) = (TaskFail ret, w1) ->
  read_kernel fuel start n buf (log (EvMalloc n true) w)
  = Some (modulus - 1, buf, w1)
  /\ modulus - 1 <> 0
  /\ find_bytes_kern fuel start end_ bytes w
     = Some (match memmem buf bytes with
             | Some k => wrap (start + Z.of_nat k)
             | None => 0
             end,
             log EvFree w1).
Proof.
  intros n buf Hm Hg.
  destruct (acquisition_failure_sentinel_aux fuel _ _ _ Hg) as [Hr Hnz].
  split; [apply Hr|]. split; [exact Hnz|].
  destruct (find_bytes_kern_after_read fuel start end_ bytes w w1
              (modulus - 1) buf Hm (Hr start n buf)) as [_ Hf].
  apply Z.eqb_neq in Hnz. rewrite Hnz in Hf. exact Hf.
Qed.

(** * Further properties *)

(** ** get_kernel_task: which calls are made *)

(** X1. With an empty cache, [task_for_pid(0)] is tried first;
    [host_get_special_port(HOST_LOCAL_NODE, 4)] is tried only when the first
    port is not valid, and with the history of the first call.  A valid
    port is handed out and cached whatever the status says; with two
    invalid ports the call fails with the reconciled status of the second
    attempt and the cache stays empty. *)
Theorem get_kernel_task_attempts (w : world) :
  task_initialized w = false ->
  let r1 := task_for_pid E (trace w) 0 in
  let p1 := wrap32 (pr_port r1) in
  let e1 := EvTaskForPid 0 p1 (pr_ret r1) in
  let r2 := host_get_special_port E (trace w ++ [e1]) HOST_LOCAL_NODE 4 in
  let p2 := wrap32 (pr_port r2) in
  let e2 := EvHostGetSpecialPort HOST_LOCAL_NODE 4 p2 (pr_ret r2) in
  (MACH_PORT_VALID p1 = true ->
   exists w', get_kernel_task w = (TaskOk p1, w')
              /\ trace w' = trace w ++ [e1]
              /\ task_cache w' = (p1, true))
  /\ (MACH_PORT_VALID p1 = false -> MACH_PORT_VALID p2 = true ->
      exists w', get_kernel_task w = (TaskOk p2, w')
                 /\ trace w' = trace w ++ [e1; e2]
                 /\ task_cache w' = (p2, true))
  /\ (MACH_PORT_VALID p1 = false -> MACH_PORT_VALID p2 = false ->
      exists w', get_kernel_task w
                 = (TaskFail (if pr_ret r2 =? KERN_SUCCESS
                              then KERN_FAILURE else pr_ret r2), w')
                 /\ trace w' = trace w ++ [e1; e2]
                 /\ task_initialized w' = false).
Proof.
  intros Hi r1 p1 e1 r2 p2 e2.
  destruct (get_kernel_task_trusts_port w Hi) as (H1 & H2 & H3).
  cbv zeta in H1, H2, H3.
  split; [|split].
  - intros Hv. eexists. split; [apply H1; exact Hv|]. split; reflexivity.
  - intros Hv1 Hv2. eexists. split; [apply H2; assumption|].
    split; [|reflexivity].
    cbn [try_special_port try_task_for_pid snd trace log
         set_task_initialized set_kernel_task].
    rewrite <- app_assoc. reflexivity.
  - intros Hv1 Hv2. eexists. split.
    + rewrite (H3 Hv1 Hv2). f_equal.
      cbn [try_special_port fst]. unfold VERIFY_PORT.
      change (MACH_PORT_VALID
                (wrap32 (pr_port
                   (host_get_special_port E
                      (trace (set_kernel_task MACH_PORT_NULL
                                (snd (try_task_for_pid w))))
                      HOST_LOCAL_NODE 4)))) with (MACH_PORT_VALID p2).
      rewrite Hv2. reflexivity.
    + split; [|cbn; exact Hi].
      cbn [try_special_port try_task_for_pid snd trace log set_kernel_task].
      rewrite <- app_assoc. reflexivity.
Qed.

(** ** The caches stay consistent *)

Lemma get_kernel_task_consistent (w w' : world) (r : task_result) :
  caches_consistent w ->
  get_kernel_task w = (r, w') ->
  caches_consistent w'
  /\ (forall t, r = TaskOk t -> MACH_PORT_VALID t = true).
Proof.
  intros [Hc1 Hc2] H.
  pose proof (get_kernel_task_base_cache _ _ _ H) as Hb.
  unfold base_cache in Hb. injection Hb as _ Hb.
  destruct (bool_dec (task_initialized w) true) as [Hi|Hi];
    [|apply not_true_is_false in Hi].
  - rewrite get_kernel_task_cached in H by assumption.
    injection H as <- <-. split; [split; assumption|].
    intros t [= <-]. auto.
  - assert (Hk : kbase_initialized w' = false).
    { rewrite Hb. destruct (bool_dec (kbase_initialized w) true) as [Hk|Hk];
        [|now apply not_true_is_false in Hk].
      rewrite (Hc2 Hk) in Hi. discriminate. }
    destruct (get_kernel_task_trusts_port w Hi) as (H1 & H2 & H3).
    cbv zeta in H1, H2, H3.
    destruct (MACH_PORT_VALID (kernel_task (snd (try_task_for_pid w))))
      eqn:Hv1.
    + rewrite (H1 eq_refl) in H. injection H as <- <-.
      split; [split|].
      * intros _. exact Hv1.
      * intros Hk'. reflexivity.
      * intros t [= <-]. exact Hv1.
    + destruct (MACH_PORT_VALID
                  (kernel_task
                     (snd (try_special_port (snd (try_task_for_pid w))))))
        eqn:Hv2.
      * rewrite (H2 eq_refl eq_refl) in H. injection H as <- <-.
        split; [split|].
        -- intros _. exact Hv2.
        -- intros Hk'. reflexivity.
        -- intros t [= <-]. exact Hv2.
      * rewrite (H3 eq_refl eq_refl) in H. injection H as <- <-.
        split; [split|].
        -- cbn. rewrite Hi. discriminate.
        -- intros Hk'. rewrite Hk in Hk'. discriminate.
        -- discriminate.
Qed.

Lemma caches_consistent_same (w w' : world) :
  task_cache w' = task_cache w ->
  kbase_initialized w' = kbase_initialized w ->
  caches_consistent w -> caches_consistent w'.
Proof.
  unfold task_cache, caches_consistent. intros [= Hk Hi] Hb [H1 H2].
  rewrite Hk, Hi, Hb. auto.
Qed.

Lemma read_kernel_consistent (fuel : nat) (addr size : Z)
  (buf buf' : list byte) (w w' : world) (n : Z) :
  caches_consistent w ->
  read_kernel fuel addr size buf w = Some (n, buf', w') ->
  caches_consistent w'.
Proof.
  intros Hc H. unfold read_kernel in H.
  destruct (get_kernel_task w) as [[t|ret] w1] eqn:Hg;
    apply (get_kernel_task_consistent _ _ _ Hc) in Hg; destruct Hg as [Hg _].
  - destruct (read_chunks _ _ _ _) as [s|] eqn:Hrd; [|discriminate].
    injection H as <- <- <-. apply read_chunks_caches in Hrd.
    cbn [rd_start rd_world] in Hrd. destruct Hrd as [Ht Hb].
    apply (caches_consistent_same w1); auto.
    unfold base_cache in Hb. now injection Hb.
  - now injection H as <- <- <-.
Qed.

Lemma api_step_consistent (w w' : world) :
  api_step w w' -> caches_consistent w -> caches_consistent w'.
Proof.
  intros Hs Hc. destruct Hs as
    [w r w' H | fuel w a w' H | fuel addr size buf w n buf' w' H
     | fuel addr data size w n w' H | fuel start end_ bytes w a w' H].
  - now apply (get_kernel_task_consistent _ _ _ Hc) in H.
  - unfold get_kernel_base in H.
    destruct (kbase_initialized w) eqn:Hk; [now injection H as <- <-|].
    destruct (get_kernel_task w) as [[t|ret] w1] eqn:Hg;
      pose proof (get_kernel_task_base_cache _ _ _ Hg) as Hb;
      pose proof Hg as Hok;
      apply (get_kernel_task_consistent _ _ _ Hc) in Hg;
      destruct Hg as [Hg _].
    + apply get_kernel_task_ok in Hok. destruct Hok as [Hi _].
      destruct (scan_regions _ _ _) as [[[|] w2]|] eqn:Hscan;
        try discriminate; injection H as <- <-;
        apply scan_regions_keeps in Hscan; destruct Hscan as [Ht Hkk];
        cbn [scan_start s_world] in Ht, Hkk.
      * unfold task_cache in Ht. cbn in Ht. injection Ht as Hkt Hit.
        destruct Hg as [Hg1 Hg2]. split; cbn.
        -- intros _. rewrite Hkt. apply Hg1. exact Hi.
        -- intros _. rewrite Hit. exact Hi.
      * apply (caches_consistent_same w1); auto.
    + now injection H as <- <-.
  - now apply (read_kernel_consistent _ _ _ _ _ _ _ _ Hc) in H.
  - unfold write_kernel in H.
    destruct (get_kernel_task w) as [[t|ret] w1] eqn:Hg;
      apply (get_kernel_task_consistent _ _ _ Hc) in Hg;
      destruct Hg as [Hg _].
    + destruct (write_chunks _ _ _ _ _) as [s|] eqn:Hwr; [|discriminate].
      injection H as <- <-. apply write_chunks_caches in Hwr.
      cbn [wr_start wr_world] in Hwr. destruct Hwr as [Ht Hb].
      apply (caches_consistent_same w1); auto.
      unfold base_cache in Hb. now injection Hb.
    + now injection H as <- <-.
  - unfold find_bytes_kern in H.
    destruct (malloc E (trace w) _); [|now injection H as <- <-].
    destruct (read_kernel _ _ _ _ _) as [[[got buf'] w1]|] eqn:Hrk;
      [|discriminate].
    injection H as <- <-.
    apply (read_kernel_consistent _ _ _ _ _ (log _ w)) in Hrk; [exact Hrk|].
    exact Hc.
Qed.

(** X2. Whatever calls of the library were made since the process started (or
    since any state with consistent caches), the cached task is a valid
    port, the base is cached only together with the task, and every task
    [get_kernel_task] hands out is a valid port. *)
Theorem reachable_caches_consistent (w w' : world) :
  caches_consistent w ->
  api_reach w w' ->
  caches_consistent w'
  /\ (forall t w'', get_kernel_task w' = (TaskOk t, w'') ->
                    MACH_PORT_VALID t = true).
Proof.
  intros Hc Hr.
  assert (Hc' : caches_consistent w').
  { induction Hr as [w | w w1 w2 Hs _ IH]; [exact Hc|].
    apply IH. exact (api_step_consistent _ _ Hs Hc). }
  split; [exact Hc'|].
  intros t w'' Hg.
  destruct (get_kernel_task_consistent _ _ _ Hc' Hg) as [_ Hv].
  now apply Hv.
Qed.

(** ** get_kernel_base: the ways to 0 *)

(** X3. [get_kernel_base] gives up with 0, and leaves the base cache empty so
    that the next call starts over, when the kernel task cannot be had (no
    region is then asked for) and when [vm_region_recurse_64] fails after
    [k] regions none of which was the one sought. *)
Theorem get_kernel_base_gives_up (fuel : nat) (w : world) :
  kbase_initialized w = false ->
  (forall (ret : kern_return_t) (w1 : world),
      get_kernel_task w = (TaskFail ret, w1) ->
      get_kernel_base fuel w = Some (0, w1)
      /\ kbase_initialized w1 = false)
  /\ (forall (k : nat) (t : Z) (w1 w2 : world) (s : scan_state),
         get_kernel_task w = (TaskOk t, w1) ->
         skip_regions k t (scan_start w1) = Some s ->
         next_region t s = RegionNone w2 ->
         get_kernel_base (k + fuel) w = Some (0, w2)
         /\ kbase_initialized w2 = false).
Proof.
  intros Hi. split.
  - intros ret w1 Hg. unfold get_kernel_base. rewrite Hi, Hg.
    split; [reflexivity|].
    apply get_kernel_task_base_cache in Hg. unfold base_cache in Hg.
    injection Hg as _ Hg. congruence.
  - intros k t w1 w2 s Hg Hk Hn. split.
    + unfold get_kernel_base. rewrite Hi, Hg.
      rewrite (skip_regions_scan k fuel t _ _ Hk).
      destruct fuel; cbn [scan_regions]; rewrite Hn; reflexivity.
    + pose proof (next_region_keeps t s) as K1. rewrite Hn in K1.
      destruct K1 as [_ K1].
      pose proof (skip_regions_keeps _ _ _ _ Hk) as [_ K2].
      apply get_kernel_task_base_cache in Hg. unfold base_cache in Hg.
      injection Hg as _ Hg. cbn in K2. congruence.
Qed.

Lemma check_headers_reads (t : Z) (s : hdr_state) :
  check_headers t s =
  let '(ret1, hdr1, w1) := first_read t s in
  let '(ret2, hdr2, w2) := second_read t s in
  let X := kbase_addr (h_world s) in
  if negb (ret1 =? KERN_SUCCESS) then HdrReturn0 w1
  else if negb (ret2 =? KERN_SUCCESS) then
         if magic_ok hdr1
         then HdrAccept (set_addr (wrap (X + IMAGE_OFFSET A)) w2)
         else HdrReturn0 w2
       else
         let b1 := if magic_ok hdr1 && magic_ok hdr2
                   then exec_ok hdr1 else magic_ok hdr1 in
         let b2 := if magic_ok hdr1 && magic_ok hdr2
                   then exec_ok hdr2 else magic_ok hdr2 in
         if (magic_ok hdr1 && magic_ok hdr2) && (b1 && b2) then HdrReturn0 w2
         else if b1 then HdrAccept (set_addr (wrap (X + IMAGE_OFFSET A)) w2)
         else if b2
              then HdrAccept (set_addr (wrap (X + 2 * IMAGE_OFFSET A)) w2)
              else HdrRetry {| h_hdr1 := hdr1; h_hdr2 := hdr2;
                               h_world := set_addr (wrap (X + 0x100000)) w2 |}.
Proof. reflexivity. Qed.

(** X4. What the header reads themselves decide, at the region that matched:
    when the read at [IMAGE_OFFSET] fails the function returns 0 without
    trying the second offset; when only the read at [2 * IMAGE_OFFSET]
    fails, the first header alone decides: with the expected magic its
    address is returned and cached, otherwise the function returns 0. *)
Theorem header_read_failures (k fuel : nat) (w w1 wm : world) (t : Z)
  (s : scan_state) :
  kbase_initialized w = false ->
  get_kernel_task w = (TaskOk t, w1) ->
  skip_regions k t (scan_start w1) = Some s ->
  next_region t s = RegionMatch wm ->
  let X := kbase_addr wm in
  (forall ret1 hdr1 wa,
      first_read t (hdr_start wm) = (ret1, hdr1, wa) ->
      ret1 <> KERN_SUCCESS ->
      get_kernel_base (k + fuel) w = Some (0, wa)
      /\ trace wa = trace wm
                    ++ [EvRead t (wrap (X + IMAGE_OFFSET A))
                               (sizeof_mach_hdr A) ret1
                               (wrap (ro_size
                                  (vm_read_overwrite E (trace wm) t
                                     (wrap (X + IMAGE_OFFSET A))
                                     (sizeof_mach_hdr A))))])
  /\ (forall hdr1 wa ret2 hdr2 wb,
         first_read t (hdr_start wm) = (KERN_SUCCESS, hdr1, wa) ->
         second_read t (hdr_start wm) = (ret2, hdr2, wb) ->
         ret2 <> KERN_SUCCESS ->
         (hdr_magic A hdr1 = MACH_HEADER_MAGIC A ->
          get_kernel_base (k + fuel) w
          = Some (wrap (X + IMAGE_OFFSET A),
                  set_kbase_initialized
                    (set_addr (wrap (X + IMAGE_OFFSET A)) wb)))
         /\ (hdr_magic A hdr1 <> MACH_HEADER_MAGIC A ->
             get_kernel_base (k + fuel) w = Some (0, wb))).
Proof.
  intros Hi Hg Hk Hm X.
  rewrite (get_kernel_base_scan k fuel w w1 wm t s Hi Hg Hk Hm).
  pose proof (check_headers_reads t (hdr_start wm)) as Hc.
  split.
  - intros ret1 hdr1 wa H1 Hr. rewrite H1 in Hc.
    destruct (second_read t (hdr_start wm)) as [[ret2 hdr2] wb].
    apply Z.eqb_neq in Hr. rewrite Hr in Hc. cbn [negb] in Hc.
    split.
    + destruct fuel; cbn [find_header]; rewrite Hc; reflexivity.
    + unfold first_read, read_hdr in H1. injection H1 as <- _ <-.
      reflexivity.
  - intros hdr1 wa ret2 hdr2 wb H1 H2 Hr. rewrite H1, H2 in Hc.
    apply Z.eqb_neq in Hr. rewrite Hr in Hc. cbn [negb Z.eqb KERN_SUCCESS] in Hc.
    split.
    + intros Hmg. apply magic_ok_true in Hmg. rewrite Hmg in Hc.
      destruct fuel; cbn [find_header]; rewrite Hc; reflexivity.
    + intros Hmg. apply magic_ok_false in Hmg. rewrite Hmg in Hc.
      destruct fuel; cbn [find_header]; rewrite Hc; reflexivity.
Qed.

(** X5. When both headers have the expected magic, CPU type and file type
    decide: the one header that is an [MH_EXECUTE] for [MACH_TYPE] is
    taken; when neither is, the turn ends like one without any magic, and
    the loop goes on 0x100000 further. *)
Theorem two_magics_are_told_apart (k fuel : nat) (w w1 wm w2 : world)
  (t : Z) (s : scan_state) (h1 h2 : list byte) :
  kbase_initialized w = false ->
  get_kernel_task w = (TaskOk t, w1) ->
  skip_regions k t (scan_start w1) = Some s ->
  next_region t s = RegionMatch wm ->
  read_both t (hdr_start wm) = Some (h1, h2, w2) ->
  hdr_magic A h1 = MACH_HEADER_MAGIC A ->
  hdr_magic A h2 = MACH_HEADER_MAGIC A ->
  let X := kbase_addr wm in
  (exec_ok h1 = true -> exec_ok h2 = false ->
   get_kernel_base (k + fuel) w
   = Some (wrap (X + IMAGE_OFFSET A),
           set_kbase_initialized (set_addr (wrap (X + IMAGE_OFFSET A)) w2)))
  /\ (exec_ok h1 = false -> exec_ok h2 = true ->
      get_kernel_base (k + fuel) w
      = Some (wrap (X + 2 * IMAGE_OFFSET A),
              set_kbase_initialized
                (set_addr (wrap (X + 2 * IMAGE_OFFSET A)) w2)))
  /\ (exec_ok h1 = false -> exec_ok h2 = false ->
      check_headers t (hdr_start wm)
      = HdrRetry {| h_hdr1 := h1; h_hdr2 := h2;
                    h_world := set_addr (wrap (X + 0x100000)) w2 |}).
Proof.
  intros Hi Hg Hk Hm Hb M1 M2 X.
  rewrite (get_kernel_base_scan k fuel w w1 wm t s Hi Hg Hk Hm).
  pose proof (check_headers_both _ _ _ _ _ Hb) as Hc. cbv zeta in Hc.
  apply magic_ok_true in M1, M2. rewrite M1, M2 in Hc.
  split; [|split]; intros E1 E2; rewrite E1, E2 in Hc; cbn [andb] in Hc.
  - destruct fuel; cbn [find_header]; rewrite Hc; reflexivity.
  - destruct fuel; cbn [find_header]; rewrite Hc; reflexivity.
  - exact Hc.
Qed.

(** ** get_kernel_base: what a scan depends on and what it returns *)

Lemma get_kernel_task_set_addr (a : Z) (w : world) :
  get_kernel_task (set_addr a w)
  = (fst (get_kernel_task w), set_addr a (snd (get_kernel_task w))).
Proof.
  unfold get_kernel_task, try_task_for_pid, try_special_port.
  cbn [task_initialized set_addr trace set_kernel_task log kernel_task].
  repeat match goal with
         | |- context [if ?b then _ else _] => destruct b
         end; reflexivity.
Qed.

(** X6. A scan that failed leaves the address it had reached in the static
    [addr].  That value is never looked at: with an empty base cache and
    the task at hand, the next call does the same and returns the same
    whatever [addr] holds. *)
Theorem stale_addr_is_ignored (fuel : nat) (a t : Z) (w w1 : world) :
  kbase_initialized w = false ->
  get_kernel_task w = (TaskOk t, w1) ->
  get_kernel_base fuel (set_addr a w) = get_kernel_base fuel w.
Proof.
  intros Hi Hg. unfold get_kernel_base.
  cbn [kbase_initialized set_addr]. rewrite Hi.
  rewrite get_kernel_task_set_addr, Hg. cbn [fst snd].
  reflexivity.
Qed.

Lemma check_headers_accept (t : Z) (s : hdr_state) (w' : world) (n : nat) :
  length (h_hdr1 s) = n -> length (h_hdr2 s) = n ->
  check_headers t s = HdrAccept w' ->
  exists (h : list event) (old : list byte) (rest : list event),
    let r := vm_read_overwrite E h t (kbase_addr w') (sizeof_mach_hdr A) in
    length old = n
    /\ ro_ret r = KERN_SUCCESS
    /\ hdr_magic A (store old 0 (ro_data r)) = MACH_HEADER_MAGIC A
    /\ trace w' = h ++ EvRead t (kbase_addr w') (sizeof_mach_hdr A)
                              KERN_SUCCESS (wrap (ro_size r)) :: rest.
Proof.
  intros L1 L2. rewrite check_headers_reads.
  unfold second_read, first_read, read_hdr. cbn [snd].
  set (X := kbase_addr (h_world s)).
  set (a1 := wrap (X + IMAGE_OFFSET A)).
  set (a2 := wrap (X + 2 * IMAGE_OFFSET A)).
  set (r1 := vm_read_overwrite E (trace (h_world s)) t a1 (sizeof_mach_hdr A)).
  set (w1 := log _ (h_world s)).
  set (r2 := vm_read_overwrite E (trace w1) t a2 (sizeof_mach_hdr A)).
  set (hdr1 := store (h_hdr1 s) 0 (ro_data r1)).
  set (hdr2 := store (h_hdr2 s) 0 (ro_data r2)).
  cbv zeta.
  assert (Acc1 : ro_ret r1 = KERN_SUCCESS -> magic_ok hdr1 = true ->
                 forall w2, trace w2 = trace w1 ++ [EvRead t a2 (sizeof_mach_hdr A)
                                         (ro_ret r2) (wrap (ro_size r2))] ->
                 w' = set_addr a1 w2 ->
                 exists (h : list event) (old : list byte) (rest : list event),
                   let r := vm_read_overwrite E h t (kbase_addr w')
                              (sizeof_mach_hdr A) in
                   length old = n
                   /\ ro_ret r = KERN_SUCCESS
                   /\ hdr_magic A (store old 0 (ro_data r))
                      = MACH_HEADER_MAGIC A
                   /\ trace w' = h ++ EvRead t (kbase_addr w')
                                   (sizeof_mach_hdr A) KERN_SUCCESS
                                   (wrap (ro_size r)) :: rest).
  { intros Hr Hmg w2 Ht ->. cbn [kbase_addr set_addr trace].
    exists (trace (h_world s)), (h_hdr1 s),
      [EvRead t a2 (sizeof_mach_hdr A) (ro_ret r2) (wrap (ro_size r2))].
    cbv zeta. fold r1. split; [exact L1|]. split; [exact Hr|].
    split; [now apply magic_ok_true|].
    rewrite Ht. subst w1. cbn [trace log]. rewrite Hr, <- app_assoc.
    reflexivity. }
  assert (Acc2 : ro_ret r2 = KERN_SUCCESS -> magic_ok hdr2 = true ->
                 forall w2, trace w2 = trace w1 ++ [EvRead t a2 (sizeof_mach_hdr A)
                                         (ro_ret r2) (wrap (ro_size r2))] ->
                 w' = set_addr a2 w2 ->
                 exists (h : list event) (old : list byte) (rest : list event),
                   let r := vm_read_overwrite E h t (kbase_addr w')
                              (sizeof_mach_hdr A) in
                   length old = n
                   /\ ro_ret r = KERN_SUCCESS
                   /\ hdr_magic A (store old 0 (ro_data r))
                      = MACH_HEADER_MAGIC A
                   /\ trace w' = h ++ EvRead t (kbase_addr w')
                                   (sizeof_mach_hdr A) KERN_SUCCESS
                                   (wrap (ro_size r)) :: rest).
  { intros Hr Hmg w2 Ht ->. cbn [kbase_addr set_addr trace].
    exists (trace w1), (h_hdr2 s), [].
    cbv zeta. fold r2. split; [exact L2|]. split; [exact Hr|].
    split; [now apply magic_ok_true|].
    rewrite Ht, Hr. reflexivity. }
  destruct (ro_ret r1 =? KERN_SUCCESS) eqn:E1; cbn [negb]; [|discriminate].
  apply Z.eqb_eq in E1.
  destruct (ro_ret r2 =? KERN_SUCCESS) eqn:E2; cbn [negb].
  - apply Z.eqb_eq in E2.
    destruct (magic_ok hdr1) eqn:M1, (magic_ok hdr2) eqn:M2; cbn [andb];
      try destruct (exec_ok hdr1) eqn:X1; try destruct (exec_ok hdr2) eqn:X2;
      cbn [andb]; try discriminate; intros [= <-];
      first [ eapply Acc1; [assumption | reflexivity | | reflexivity];
              reflexivity
            | eapply Acc2; [assumption | reflexivity | | reflexivity];
              reflexivity ].
  - destruct (magic_ok hdr1) eqn:M1; [|discriminate].
    intros [= <-].
    eapply Acc1; [assumption | reflexivity | | reflexivity]. reflexivity.
Qed.

Lemma check_headers_retry_lengths (t : Z) (s s' : hdr_state) :
  check_headers t s = HdrRetry s' ->
  length (h_hdr1 s') = length (h_hdr1 s)
  /\ length (h_hdr2 s') = length (h_hdr2 s).
Proof.
  unfold check_headers, read_hdr. cbv zeta.
  repeat match goal with
         | |- context [if ?b then _ else _] => destruct b
         end; try discriminate.
  intros [= <-]. cbn [h_hdr1 h_hdr2]. now rewrite !store_length.
Qed.

Lemma find_header_accept (fuel : nat) (t : Z) (s : hdr_state) (w' : world)
  (n : nat) :
  length (h_hdr1 s) = n -> length (h_hdr2 s) = n ->
  find_header fuel t s = Some (true, w') ->
  exists s' : hdr_state,
    length (h_hdr1 s') = n /\ length (h_hdr2 s') = n
    /\ check_headers t s' = HdrAccept w'.
Proof.
  revert s. induction fuel as [|f IH]; intros s L1 L2; cbn [find_header];
    destruct (check_headers t s) as [w0|w0|s1] eqn:Hc;
    try discriminate;
    try (intros [= <-]; exists s; auto).
  apply check_headers_retry_lengths in Hc. destruct Hc as [K1 K2].
  apply IH; congruence.
Qed.

Lemma scan_regions_accept (fuel : nat) (t : Z) (s : scan_state) (w' : world) :
  scan_regions fuel t s = Some (true, w') ->
  exists s' : hdr_state,
    length (h_hdr1 s') = Z.to_nat (sizeof_mach_hdr A)
    /\ length (h_hdr2 s') = Z.to_nat (sizeof_mach_hdr A)
    /\ check_headers t s' = HdrAccept w'.
Proof.
  revert s. induction fuel as [|f IH]; intros s; cbn [scan_regions];
    destruct (next_region t s) as [w0|w0|s1]; try discriminate;
    try (apply find_header_accept; apply fresh_bytes_length).
  apply IH.
Qed.

(** X7. An address other than 0 that [get_kernel_base] computes is cached, and
    it is the address of a header read that succeeded and left the
    expected magic in the header variable: some history [h] of the trace
    ends with that read, into a variable of [sizeof(mach_hdr_t)] bytes. *)
Theorem nonzero_base_was_read_with_magic (fuel : nat) (w w' : world) (a : Z) :
  kbase_initialized w = false ->
  get_kernel_base fuel w = Some (a, w') ->
  a <> 0 ->
  base_cache w' = (a, true)
  /\ exists (t : Z) (h : list event) (old : list byte) (rest : list event),
      let r := vm_read_overwrite E h t a (sizeof_mach_hdr A) in
      length old = Z.to_nat (sizeof_mach_hdr A)
      /\ ro_ret r = KERN_SUCCESS
      /\ hdr_magic A (store old 0 (ro_data r)) = MACH_HEADER_MAGIC A
      /\ trace w' = h ++ EvRead t a (sizeof_mach_hdr A) KERN_SUCCESS
                                (wrap (ro_size r)) :: rest.
Proof.
  intros Hi H Ha. unfold get_kernel_base in H. rewrite Hi in H.
  destruct (get_kernel_task w) as [[t|ret] w1];
    [|injection H as <- <-; contradiction].
  destruct (scan_regions fuel t (scan_start w1)) as [[[|] w2]|] eqn:Hs;
    try discriminate; injection H as <- <-; [|contradiction].
  split; [reflexivity|].
  destruct (scan_regions_accept _ _ _ _ Hs) as (s' & L1 & L2 & Hc).
  destruct (check_headers_accept t s' w2 _ L1 L2 Hc)
    as (h & old & rest & Hr).
  exists t, h, old, rest. exact Hr.
Qed.

(** X8. The header loop has no bound of its own: at a region that matched, as
    long as every header read succeeds and no header shows the expected
    magic, it moves on by 0x100000 for ever, and [get_kernel_base] does
    not return, whatever the fuel. *)
Theorem header_loop_has_no_bound (k : nat) (w w1 wm : world) (t : Z)
  (s : scan_state) :
  kbase_initialized w = false ->
  get_kernel_task w = (TaskOk t, w1) ->
  skip_regions k t (scan_start w1) = Some s ->
  next_region t s = RegionMatch wm ->
  (forall (h : list event) (a : Z) (old : list byte),
      length old = Z.to_nat (sizeof_mach_hdr A) ->
      let r := vm_read_overwrite E h t a (sizeof_mach_hdr A) in
      ro_ret r = KERN_SUCCESS
      /\ hdr_magic A (store old 0 (ro_data r)) <> MACH_HEADER_MAGIC A) ->
  forall fuel : nat, get_kernel_base (k + fuel) w = None.
Proof.
  intros Hi Hg Hk Hm Hall fuel.
  rewrite (get_kernel_base_scan k fuel w w1 wm t s Hi Hg Hk Hm).
  assert (Hloop : forall f s0,
             length (h_hdr1 s0) = Z.to_nat (sizeof_mach_hdr A) ->
             length (h_hdr2 s0) = Z.to_nat (sizeof_mach_hdr A) ->
             find_header f t s0 = None).
  { induction f as [|f IH]; intros s0 L1 L2; cbn [find_header];
      rewrite check_headers_reads;
      unfold second_read, first_read, read_hdr; cbn [snd];
      set (a1 := wrap (kbase_addr (h_world s0) + IMAGE_OFFSET A));
      set (a2 := wrap (kbase_addr (h_world s0) + 2 * IMAGE_OFFSET A));
      set (r1 := vm_read_overwrite E (trace (h_world s0)) t a1
                   (sizeof_mach_hdr A));
      set (w1' := log _ (h_world s0));
      set (r2 := vm_read_overwrite E (trace w1') t a2 (sizeof_mach_hdr A));
      destruct (Hall (trace (h_world s0)) a1 (h_hdr1 s0) L1) as [R1 M1];
      destruct (Hall (trace w1') a2 (h_hdr2 s0) L2) as [R2 M2];
      fold r1 in R1, M1; fold r2 in R2, M2;
      apply magic_ok_false in M1, M2;
      cbv zeta; rewrite R1, R2, M1, M2; cbn [negb andb Z.eqb KERN_SUCCESS];
      [reflexivity|].
    apply IH; cbn [h_hdr1 h_hdr2]; now rewrite store_length. }
  rewrite Hloop; [reflexivity | apply fresh_bytes_length..].
Qed.

(** ** read_kernel and write_kernel: any run *)

Lemma read_chunk_break_inv (t end_ : Z) (s s1 : rd_state) :
  read_chunk t end_ s = RdBreak s1 ->
  let c := chunk_size (rd_remainder s) in
  let r := vm_read_overwrite E (trace (rd_world s)) t (rd_addr s) c in
  let out := wrap (ro_size r) in
  rd_addr s < end_ /\ (ro_ret r <> KERN_SUCCESS \/ out = 0)
  /\ rd_bytes_read s1 = rd_bytes_read s
  /\ rd_world s1 = log (EvRead t (rd_addr s) c (ro_ret r) out) (rd_world s).
Proof.
  unfold read_chunk. cbv zeta.
  destruct (rd_addr s <? end_) eqn:Ha; [|discriminate].
  apply Z.ltb_lt in Ha.
  destruct (ro_ret _ =? KERN_SUCCESS) eqn:Hr; cbn [negb orb].
  - destruct (wrap _ =? 0) eqn:Ho; [|discriminate].
    intros [= <-]. apply Z.eqb_eq in Ho. cbn. auto.
  - intros [= <-]. apply Z.eqb_neq in Hr. cbn. auto.
Qed.

Lemma read_chunk_exit_inv (t end_ : Z) (s : rd_state) :
  read_chunk t end_ s = RdExit -> end_ <= rd_addr s.
Proof.
  unfold read_chunk. cbv zeta.
  destruct (rd_addr s <? end_) eqn:Ha.
  - destruct (negb _ || _); discriminate.
  - intros _. now apply Z.ltb_ge in Ha.
Qed.

Lemma read_chunks_run (t lo end_ size : Z) :
  reads_bounded -> end_ < modulus -> size < modulus ->
  forall (fuel : nat) (s s' : rd_state),
    0 <= lo <= rd_addr s ->
    rd_addr s + rd_remainder s = end_ ->
    0 <= rd_remainder s ->
    0 <= rd_bytes_read s ->
    rd_bytes_read s + rd_remainder s = size ->
    read_chunks fuel t end_ s = Some s' ->
    exists evs : list event,
      trace (rd_world s') = trace (rd_world s) ++ evs
      /\ Forall (inside lo end_) evs
      /\ rd_bytes_read s' = rd_bytes_read s + total_moved evs
      /\ rd_bytes_read s' <= size
      /\ (rd_bytes_read s' = size
          \/ exists evs0 e, evs = evs0 ++ [e] /\ broke e).
Proof.
  intros Hreq Hend Hsize.
  assert (Hstep : forall (s s' : rd_state)
                    (rec : rd_state -> option rd_state),
             (forall s1 s2,
                 0 <= lo <= rd_addr s1 ->
                 rd_addr s1 + rd_remainder s1 = end_ ->
                 0 <= rd_remainder s1 ->
                 0 <= rd_bytes_read s1 ->
                 rd_bytes_read s1 + rd_remainder s1 = size ->
                 rec s1 = Some s2 ->
                 exists evs : list event,
                   trace (rd_world s2) = trace (rd_world s1) ++ evs
                   /\ Forall (inside lo end_) evs
                   /\ rd_bytes_read s2 = rd_bytes_read s1 + total_moved evs
                   /\ rd_bytes_read s2 <= size
                   /\ (rd_bytes_read s2 = size
                       \/ exists evs0 e, evs = evs0 ++ [e] /\ broke e)) ->
             0 <= lo <= rd_addr s ->
             rd_addr s + rd_remainder s = end_ ->
             0 <= rd_remainder s ->
             0 <= rd_bytes_read s ->
             rd_bytes_read s + rd_remainder s = size ->
             match read_chunk t end_ s with
             | RdExit => Some s
             | RdBreak s1 => Some s1
             | RdAgain s1 => rec s1
             end = Some s' ->
             exists evs : list event,
               trace (rd_world s') = trace (rd_world s) ++ evs
               /\ Forall (inside lo end_) evs
               /\ rd_bytes_read s' = rd_bytes_read s + total_moved evs
               /\ rd_bytes_read s' <= size
               /\ (rd_bytes_read s' = size
                   \/ exists evs0 e, evs = evs0 ++ [e] /\ broke e)).
  { intros s s' rec IH Hlo Hsum Hrem Hbr Htot.
    destruct (read_chunk t end_ s) as [| s1 | s1] eqn:Hc.
    - intros [= <-]. apply read_chunk_exit_inv in Hc.
      exists []. rewrite app_nil_r. cbn [total_moved fold_right].
      repeat split; auto; try lia.
    - intros [= <-]. apply read_chunk_break_inv in Hc. cbv zeta in Hc.
      destruct Hc as (Ha & Hf & Hb & Hw).
      set (c := chunk_size (rd_remainder s)) in *.
      set (r := vm_read_overwrite E (trace (rd_world s)) t (rd_addr s) c) in *.
      assert (Hpos : 0 < rd_remainder s) by lia.
      destruct (chunk_size_bounds _ Hpos) as [Hc1 Hc2]. fold c in Hc1, Hc2.
      exists [EvRead t (rd_addr s) c (ro_ret r) (wrap (ro_size r))].
      assert (Hm : moved (EvRead t (rd_addr s) c (ro_ret r)
                                 (wrap (ro_size r))) = 0).
      { cbn [moved]. destruct Hf as [Hf|Hf].
        - apply Z.eqb_neq in Hf. now rewrite Hf.
        - rewrite Hf. now destruct (ro_ret r =? KERN_SUCCESS). }
      split; [rewrite Hw; reflexivity|].
      split; [constructor; [|constructor]; unfold inside; cbn; lia|].
      split; [rewrite Hb, total_moved_cons, Hm; cbn; lia|].
      split; [lia|]. right.
      exists [], (EvRead t (rd_addr s) c (ro_ret r) (wrap (ro_size r))).
      split; [reflexivity | exact Hf].
    - intros Hrun. apply read_chunk_again in Hc. cbv zeta in Hc.
      destruct Hc as (Ha & Hr & Ho & ->).
      set (c := chunk_size (rd_remainder s)) in *.
      set (r := vm_read_overwrite E (trace (rd_world s)) t (rd_addr s) c) in *.
      set (out := wrap (ro_size r)) in *.
      assert (Hout : 0 <= out < modulus) by apply wrap_range.
      assert (Hpos : 0 < rd_remainder s) by lia.
      destruct (chunk_size_bounds _ Hpos) as [Hc1 Hc2]. fold c in Hc1, Hc2.
      assert (Hle : out <= c) by (apply Hreq; [lia | exact Hr]).
      apply IH in Hrun; cbn [rd_addr rd_remainder rd_bytes_read];
        rewrite ?wrap_small by lia; try lia.
      destruct Hrun as (evs & Ht & Hin & Hb & Hbs & Hlast).
      cbn [rd_world rd_bytes_read log trace] in Ht, Hb.
      rewrite (wrap_small (rd_bytes_read s + out)) in Hb by lia.
      exists (EvRead t (rd_addr s) c (ro_ret r) out :: evs).
      assert (Hm : moved (EvRead t (rd_addr s) c (ro_ret r) out) = out)
        by (cbn [moved]; rewrite Hr; reflexivity).
      split; [rewrite Ht, <- app_assoc; reflexivity|].
      split; [constructor; [unfold inside; cbn; lia | exact Hin]|].
      split; [rewrite total_moved_cons, Hm; lia|].
      split; [exact Hbs|].
      destruct Hlast as [Hl | (evs0 & e & -> & He)]; [left; exact Hl|].
      right. exists (EvRead t (rd_addr s) c (ro_ret r) out :: evs0), e.
      split; [reflexivity | exact He]. }
  induction fuel as [|f IH]; intros s s'; cbn [read_chunks].
  - apply (Hstep s s' (fun _ => None)). intros; discriminate.
  - apply (Hstep s s' (read_chunks f t end_)). exact IH.
Qed.

Lemma write_chunk_break_inv (t end_ : Z) (data : list byte)
  (s s1 : wr_state) :
  write_chunk t end_ data s = WrBreak s1 ->
  let c := chunk_size (wr_remainder s) in
  let chunk := firstn (Z.to_nat c)
                      (skipn (Z.to_nat (wr_bytes_written s)) data) in
  let ret := vm_write E (trace (wr_world s)) t (wr_addr s) chunk c in
  wr_addr s < end_ /\ ret <> KERN_SUCCESS
  /\ wr_bytes_written s1 = wr_bytes_written s
  /\ wr_world s1 = log (EvWrite t (wr_addr s) c ret) (wr_world s).
Proof.
  unfold write_chunk. cbv zeta.
  destruct (wr_addr s <? end_) eqn:Ha; [|discriminate].
  apply Z.ltb_lt in Ha.
  destruct (vm_write _ _ _ _ _ _ =? KERN_SUCCESS) eqn:Hr; cbn [negb];
    [discriminate|].
  intros [= <-]. apply Z.eqb_neq in Hr. cbn. auto.
Qed.

Lemma write_chunk_exit_inv (t end_ : Z) (data : list byte) (s : wr_state) :
  write_chunk t end_ data s = WrExit -> end_ <= wr_addr s.
Proof.
  unfold write_chunk. cbv zeta.
  destruct (wr_addr s <? end_) eqn:Ha.
  - destruct (negb _); discriminate.
  - intros _. now apply Z.ltb_ge in Ha.
Qed.

Lemma write_chunks_run (t lo end_ size : Z) (data : list byte) :
  end_ < modulus -> size < modulus ->
  forall (fuel : nat) (s s' : wr_state),
    0 <= lo <= wr_addr s ->
    wr_addr s + wr_remainder s = end_ ->
    0 <= wr_remainder s ->
    0 <= wr_bytes_written s ->
    wr_bytes_written s + wr_remainder s = size ->
    write_chunks fuel t end_ data s = Some s' ->
    exists evs : list event,
      trace (wr_world s') = trace (wr_world s) ++ evs
      /\ Forall (inside lo end_) evs
      /\ wr_bytes_written s' = wr_bytes_written s + total_moved evs
      /\ wr_bytes_written s' <= size
      /\ (wr_bytes_written s' = size
          \/ exists evs0 e, evs = evs0 ++ [e] /\ broke e).
Proof.
  intros Hend Hsize.
  assert (Hstep : forall (s s' : wr_state)
                    (rec : wr_state -> option wr_state),
             (forall s1 s2,
                 0 <= lo <= wr_addr s1 ->
                 wr_addr s1 + wr_remainder s1 = end_ ->
                 0 <= wr_remainder s1 ->
                 0 <= wr_bytes_written s1 ->
                 wr_bytes_written s1 + wr_remainder s1 = size ->
                 rec s1 = Some s2 ->
                 exists evs : list event,
                   trace (wr_world s2) = trace (wr_world s1) ++ evs
                   /\ Forall (inside lo end_) evs
                   /\ wr_bytes_written s2
                      = wr_bytes_written s1 + total_moved evs
                   /\ wr_bytes_written s2 <= size
                   /\ (wr_bytes_written s2 = size
                       \/ exists evs0 e, evs = evs0 ++ [e] /\ broke e)) ->
             0 <= lo <= wr_addr s ->
             wr_addr s + wr_remainder s = end_ ->
             0 <= wr_remainder s ->
             0 <= wr_bytes_written s ->
             wr_bytes_written s + wr_remainder s = size ->
             match write_chunk t end_ data s with
             | WrExit => Some s
             | WrBreak s1 => Some s1
             | WrAgain s1 => rec s1
             end = Some s' ->
             exists evs : list event,
               trace (wr_world s') = trace (wr_world s) ++ evs
               /\ Forall (inside lo end_) evs
               /\ wr_bytes_written s' = wr_bytes_written s + total_moved evs
               /\ wr_bytes_written s' <= size
               /\ (wr_bytes_written s' = size
                   \/ exists evs0 e, evs = evs0 ++ [e] /\ broke e)).
  { intros s s' rec IH Hlo Hsum Hrem Hbr Htot.
    destruct (write_chunk t end_ data s) as [| s1 | s1] eqn:Hc.
    - intros [= <-]. apply write_chunk_exit_inv in Hc.
      exists []. rewrite app_nil_r. cbn [total_moved fold_right].
      repeat split; auto; try lia.
    - intros [= <-]. apply write_chunk_break_inv in Hc. cbv zeta in Hc.
      destruct Hc as (Ha & Hf & Hb & Hw).
      set (c := chunk_size (wr_remainder s)) in *.
      set (ret := vm_write E (trace (wr_world s)) t (wr_addr s) _ c) in *.
      assert (Hpos : 0 < wr_remainder s) by lia.
      destruct (chunk_size_bounds _ Hpos) as [Hc1 Hc2]. fold c in Hc1, Hc2.
      exists [EvWrite t (wr_addr s) c ret].
      assert (Hm : moved (EvWrite t (wr_addr s) c ret) = 0).
      { cbn [moved]. apply Z.eqb_neq in Hf. now rewrite Hf. }
      split; [rewrite Hw; reflexivity|].
      split; [constructor; [|constructor]; unfold inside; cbn; lia|].
      split; [rewrite Hb, total_moved_cons, Hm; cbn; lia|].
      split; [lia|]. right.
      exists [], (EvWrite t (wr_addr s) c ret).
      split; [reflexivity | exact Hf].
    - intros Hrun. apply write_chunk_again in Hc. cbv zeta in Hc.
      destruct Hc as (Ha & Hr & ->).
      set (c := chunk_size (wr_remainder s)) in *.
      set (ret := vm_write E (trace (wr_world s)) t (wr_addr s) _ c) in *.
      assert (Hpos : 0 < wr_remainder s) by lia.
      destruct (chunk_size_bounds _ Hpos) as [Hc1 Hc2]. fold c in Hc1, Hc2.
      apply IH in Hrun; cbn [wr_addr wr_remainder wr_bytes_written];
        rewrite ?wrap_small by lia; try lia.
      destruct Hrun as (evs & Ht & Hin & Hb & Hbs & Hlast).
      cbn [wr_world wr_bytes_written log trace] in Ht, Hb.
      rewrite (wrap_small (wr_bytes_written s + c)) in Hb by lia.
      exists (EvWrite t (wr_addr s) c ret :: evs).
      assert (Hm : moved (EvWrite t (wr_addr s) c ret) = c)
        by (cbn [moved]; rewrite Hr; reflexivity).
      split; [rewrite Ht, <- app_assoc; reflexivity|].
      split; [constructor; [unfold inside; cbn; lia | exact Hin]|].
      split; [rewrite total_moved_cons, Hm; lia|].
      split; [exact Hbs|].
      destruct Hlast as [Hl | (evs0 & e & -> & He)]; [left; exact Hl|].
      right. exists (EvWrite t (wr_addr s) c ret :: evs0), e.
      split; [reflexivity | exact He]. }
  induction fuel as [|f IH]; intros s s'; cbn [write_chunks].
  - apply (Hstep s s' (fun _ => None)). intros; discriminate.
  - apply (Hstep s s' (write_chunks f t end_ data)). exact IH.
Qed.

Lemma wrap_overflow (x : Z) :
  modulus <= x < 2 * modulus -> wrap x = x - modulus.
Proof.
  intros H. unfold wrap. symmetry. apply Z.mod_unique with (q := 1); lia.
Qed.

Lemma read_chunks_wrapped (fuel : nat) (t end_ : Z) (s : rd_state) :
  end_ <= rd_addr s -> read_chunks fuel t end_ s = Some s.
Proof.
  intros H.
  assert (Hx : read_chunk t end_ s = RdExit).
  { unfold read_chunk.
    assert (Hf : (rd_addr s <? end_) = false) by (apply Z.ltb_ge; lia).
    now rewrite Hf. }
  destruct fuel; cbn [read_chunks]; now rewrite Hx.
Qed.

Lemma write_chunks_wrapped (fuel : nat) (t end_ : Z) (data : list byte)
  (s : wr_state) :
  end_ <= wr_addr s -> write_chunks fuel t end_ data s = Some s.
Proof.
  intros H.
  assert (Hx : write_chunk t end_ data s = WrExit).
  { unfold write_chunk.
    assert (Hf : (wr_addr s <? end_) = false) by (apply Z.ltb_ge; lia).
    now rewrite Hf. }
  destruct fuel; cbn [write_chunks]; now rewrite Hx.
Qed.

(** X9. Once the task is there, every call [read_kernel] and [write_kernel]
    make to the outside is a transfer of between 1 and [MAX_CHUNK_SIZE]
    bytes that lies within [addr, addr + size): nothing outside the
    requested range is read or written.  For [read_kernel] this needs
    reads that do not report more than they were asked for. *)
Theorem transfers_stay_in_range :
  (forall (fuel : nat) (addr size : Z) (buf buf' : list byte)
          (w w1 w' : world) (t n : Z),
      reads_bounded ->
      0 <= addr < modulus -> 0 <= size < modulus ->
      get_kernel_task w = (TaskOk t, w1) ->
      read_kernel fuel addr size buf w = Some (n, buf', w') ->
      exists evs : list event,
        trace w' = trace w1 ++ evs
        /\ Forall (inside addr (addr + size)) evs)
  /\ (forall (fuel : nat) (addr : Z) (data : list byte) (size : Z)
             (w w1 w' : world) (t n : Z),
         0 <= addr < modulus -> 0 <= size < modulus ->
         get_kernel_task w = (TaskOk t, w1) ->
         write_kernel fuel addr data size w = Some (n, w') ->
         exists evs : list event,
           trace w' = trace w1 ++ evs
           /\ Forall (inside addr (addr + size)) evs).
Proof.
  split.
  - intros fuel addr size buf buf' w w1 w' t n Hreq Ha Hs Hg H.
    unfold read_kernel in H. rewrite Hg in H.
    destruct (read_chunks _ _ _ _) as [s'|] eqn:Hrun; [|discriminate].
    injection H as <- <- <-.
    destruct (Z_lt_le_dec (addr + size) modulus) as [Hlt|Hge].
    + rewrite (wrap_small (addr + size)) in Hrun by lia.
      destruct (read_chunks_run t addr (addr + size) size Hreq Hlt
                  (proj2 Hs) fuel (rd_start addr size buf w1) s')
        as (evs & Ht & Hin & _);
        cbn [rd_start rd_addr rd_remainder rd_bytes_read]; try lia;
        [exact Hrun|].
      exists evs. split; assumption.
    + rewrite wrap_overflow, read_chunks_wrapped in Hrun
        by (cbn [rd_start rd_addr]; lia).
      injection Hrun as <-. exists []. cbn [rd_start rd_world].
      rewrite app_nil_r. split; [reflexivity | constructor].
  - intros fuel addr data size w w1 w' t n Ha Hs Hg H.
    unfold write_kernel in H. rewrite Hg in H.
    destruct (write_chunks _ _ _ _ _) as [s'|] eqn:Hrun; [|discriminate].
    injection H as <- <-.
    destruct (Z_lt_le_dec (addr + size) modulus) as [Hlt|Hge].
    + rewrite (wrap_small (addr + size)) in Hrun by lia.
      destruct (write_chunks_run t addr (addr + size) size data Hlt
                  (proj2 Hs) fuel (wr_start addr size w1) s')
        as (evs & Ht & Hin & _);
        cbn [wr_start wr_addr wr_remainder wr_bytes_written]; try lia;
        [exact Hrun|].
      exists evs. split; assumption.
    + rewrite wrap_overflow, write_chunks_wrapped in Hrun
        by (cbn [wr_start wr_addr]; lia).
      injection Hrun as <-. exists []. cbn [wr_start wr_world].
      rewrite app_nil_r. split; [reflexivity | constructor].
Qed.


(** ** read_kernel: what ends up in the buffer *)

Lemma store_fits (buf : list byte) (off : nat) (d : list byte) :
  (off + length d <= length buf)%nat ->
  store buf off d = firstn off buf ++ d ++ skipn (off + length d) buf.
Proof.
  intros H. unfold store. rewrite (firstn_all2 (n := length buf - off));
    [reflexivity | lia].
Qed.

Lemma store_adjacent (buf : list byte) (off : nat) (d1 d2 : list byte) :
  (off + length d1 + length d2 <= length buf)%nat ->
  store (store buf off d1) (off + length d1) d2 = store buf off (d1 ++ d2).
Proof.
  intros H.
  assert (Hf : length (firstn off buf) = off)
    by (rewrite length_firstn; lia).
  rewrite (store_fits buf off d1) by lia.
  rewrite (store_fits buf off (d1 ++ d2)) by (rewrite length_app; lia).
  rewrite store_fits
    by (rewrite !length_app, length_skipn, Hf; lia).
  assert (H1 : firstn (off + length d1)
                 (firstn off buf ++ d1 ++ skipn (off + length d1) buf)
               = firstn off buf ++ d1).
  { rewrite app_assoc.
    rewrite firstn_app.
    rewrite (@firstn_all2 byte (off + length d1) (firstn off buf ++ d1))
      by (rewrite length_app, Hf; lia).
    rewrite length_app, Hf.
    replace (off + length d1 - (off + length d1))%nat with 0%nat by lia.
    cbn [firstn]. now rewrite app_nil_r. }
  assert (H2 : skipn (off + length d1 + length d2)
                 (firstn off buf ++ d1 ++ skipn (off + length d1) buf)
               = skipn (off + (length d1 + length d2)) buf).
  { rewrite app_assoc, skipn_app.
    rewrite (@skipn_all2 byte (off + length d1 + length d2)
               (firstn off buf ++ d1))
      by (rewrite length_app, Hf; lia).
    rewrite length_app, Hf, skipn_skipn. cbn [app]. f_equal. lia. }
  rewrite H1, H2, <- !app_assoc, length_app. reflexivity.
Qed.

Lemma mem_bytes_length (mem : Z -> byte) (a : Z) (n : nat) :
  length (mem_bytes mem a n) = n.
Proof. unfold mem_bytes. now rewrite length_map, length_seq. Qed.

Lemma mem_bytes_succ (mem : Z -> byte) (a : Z) (n : nat) :
  mem_bytes mem a (S n) = mem a :: mem_bytes mem (a + 1) n.
Proof.
  unfold mem_bytes. cbn [seq map]. f_equal.
  - f_equal. lia.
  - rewrite <- seq_shift, map_map. apply map_ext. intros i. f_equal. lia.
Qed.

Lemma mem_bytes_app (mem : Z -> byte) (a : Z) (n1 n2 : nat) :
  mem_bytes mem a (n1 + n2)
  = mem_bytes mem a n1 ++ mem_bytes mem (a + Z.of_nat n1) n2.
Proof.
  revert a. induction n1 as [|n1 IH]; intros a.
  - cbn [Nat.add]. unfold mem_bytes at 2. cbn [seq map app].
    f_equal. lia.
  - cbn [Nat.add]. rewrite !mem_bytes_succ, IH. cbn [app].
    do 3 f_equal. lia.
Qed.

Lemma read_chunks_memory (t : Z) (mem : Z -> byte) (lo end_ : Z) (n : nat) :
  reads_memory t mem lo end_ ->
  end_ < modulus ->
  forall (s : rd_state) (fuel : nat),
    0 <= lo <= rd_addr s ->
    rd_addr s + rd_remainder s = end_ ->
    0 <= rd_bytes_read s ->
    rd_bytes_read s + rd_remainder s < modulus ->
    MAX_CHUNK_SIZE * (Z.of_nat n - 1) < rd_remainder s
                                      <= MAX_CHUNK_SIZE * Z.of_nat n ->
    0 <= rd_remainder s ->
    (Z.to_nat (rd_bytes_read s + rd_remainder s) <= length (rd_buf s))%nat ->
    exists s' : rd_state,
      read_chunks (n + fuel) t end_ s = Some s'
      /\ rd_bytes_read s' = rd_bytes_read s + rd_remainder s
      /\ rd_buf s' = store (rd_buf s) (Z.to_nat (rd_bytes_read s))
                       (mem_bytes mem (rd_addr s)
                                  (Z.to_nat (rd_remainder s))).
Proof.
  intros Hmem Hend. induction n as [|n IH];
    intros s fuel Hlo Hsum Hbr Hbr2 Hn Hrem Hlen.
  - assert (Hz : rd_remainder s = 0) by (unfold MAX_CHUNK_SIZE in Hn; lia).
    exists s. cbn [Nat.add].
    rewrite read_chunks_wrapped by lia. rewrite Hz.
    split; [reflexivity|]. split; [lia|].
    cbn [Z.to_nat mem_bytes seq map]. unfold store.
    rewrite firstn_nil, Nat.add_0_r. cbn [app]. now rewrite firstn_skipn.
  - assert (Hpos : 0 < rd_remainder s) by (unfold MAX_CHUNK_SIZE in Hn; lia).
    destruct (chunk_size_bounds _ Hpos) as [Hc1 Hc2].
    set (c := chunk_size (rd_remainder s)) in *.
    assert (Ha : rd_addr s < end_) by lia.
    pose proof (read_chunk_ok t end_ s Ha) as Hok. cbv zeta in Hok.
    fold c in Hok.
    rewrite (Hmem (trace (rd_world s)) (rd_addr s) c Hc1) in Hok by lia.
    cbn [ro_ret ro_size ro_data] in Hok.
    rewrite (wrap_small c) in Hok by lia.
    specialize (Hok eq_refl ltac:(lia)).
    rewrite !wrap_small in Hok by lia.
    match type of Hok with _ = RdAgain ?x => set (s1 := x) in * end.
    destruct (IH s1 fuel) as (s' & Hrun & Hb & Hbuf);
      cbn [s1 rd_addr rd_remainder rd_bytes_read rd_buf];
      rewrite ?store_length; try lia.
    { unfold c, chunk_size, MAX_CHUNK_SIZE in *.
      destruct (rd_remainder s >? 4095) eqn:Hgt;
        [rewrite Z.gtb_lt in Hgt | rewrite Z.gtb_ltb, Z.ltb_ge in Hgt]; lia. }
    exists s'. split; [cbn [Nat.add read_chunks]; rewrite Hok; exact Hrun|].
    subst s1. cbn [rd_addr rd_remainder rd_bytes_read rd_buf] in Hb, Hbuf.
    split; [lia|]. rewrite Hbuf.
    replace (Z.to_nat (rd_bytes_read s + c))
      with (Z.to_nat (rd_bytes_read s)
            + length (mem_bytes mem (rd_addr s) (Z.to_nat c)))%nat
      by (rewrite mem_bytes_length; lia).
    rewrite store_adjacent
      by (rewrite !mem_bytes_length; lia).
    f_equal.
    replace (Z.to_nat (rd_remainder s))
      with (Z.to_nat c + Z.to_nat (rd_remainder s - c))%nat by lia.
    rewrite mem_bytes_app. do 2 f_equal. lia.
Qed.

Lemma read_kernel_fills_buffer (fuel : nat) (addr size : Z)
  (buf : list byte) (w w1 : world) (t : Z) (mem : Z -> byte) :
  get_kernel_task w = (TaskOk t, w1) ->
  0 <= addr -> 0 <= size -> addr + size < modulus ->
  reads_memory t mem addr (addr + size) ->
  (Z.to_nat size <= length buf)%nat ->
  let n := Z.to_nat ((size + MAX_CHUNK_SIZE - 1) / MAX_CHUNK_SIZE) in
  exists w' : world,
    read_kernel (n + fuel) addr size buf w
    = Some (size,
            mem_bytes mem addr (Z.to_nat size) ++ skipn (Z.to_nat size) buf,
            w').
Proof.
  intros Hg Ha Hs Hend Hmem Hlen n.
  pose proof (chunks_needed size Hs) as Hn. cbv zeta in Hn. fold n in Hn.
  destruct (read_chunks_memory t mem addr (addr + size) n Hmem Hend
              (rd_start addr size buf w1) fuel)
    as (s' & Hrun & Hb & Hbuf);
    cbn [rd_start rd_addr rd_remainder rd_bytes_read rd_buf]; try lia.
  exists (rd_world s').
  unfold read_kernel. rewrite Hg, (wrap_small (addr + size)) by lia.
  rewrite Hrun. cbn [rd_start rd_addr rd_remainder rd_bytes_read rd_buf] in *.
  rewrite Hb, Hbuf. cbn [Z.to_nat].
  rewrite store_fits by (rewrite mem_bytes_length; lia).
  rewrite mem_bytes_length. cbn [firstn app Nat.add Z.add]. reflexivity.
Qed.

(** X11. For a range that ends below 2^wordbits
    ([addr + size < modulus], so that [end = addr + size] does not wrap
    around), with the kernel task at hand and a buffer of at least [size]
    bytes: when every chunk read in [addr, addr + size) delivers what the
    kernel memory holds, [read_kernel] puts the chunks one behind the
    other: it returns [size], the first [size] bytes of the buffer become
    the memory from [addr] to [addr + size], in order, and the rest of the
    buffer is as it was. *)
Theorem read_kernel_copies_memory (fuel : nat) (addr size : Z)
  (buf : list byte) (w w1 : world) (t : Z) (mem : Z -> byte) :
  get_kernel_task w = (TaskOk t, w1) ->
  0 <= addr -> 0 <= size -> addr + size < modulus ->
  reads_memory t mem addr (addr + size) ->
  (Z.to_nat size <= length buf)%nat ->
  let n := Z.to_nat ((size + MAX_CHUNK_SIZE - 1) / MAX_CHUNK_SIZE) in
  exists w' : world,
    read_kernel (n + fuel) addr size buf w
    = Some (size,
            mem_bytes mem addr (Z.to_nat size) ++ skipn (Z.to_nat size) buf,
            w').
Proof. exact (read_kernel_fills_buffer fuel addr size buf w w1 t mem). Qed.

(** ** find_bytes_kern: over kernel memory, and its buffer *)

(** X12. Searching a range of kernel memory that can be read: when the pattern
    lies in the memory between [start] and [end_], [find_bytes_kern]
    returns the address of its first occurrence there, [start + k]; when
    it does not lie there, in particular when the range is empty, it
    returns 0. *)
Theorem find_bytes_kern_finds_first_in_memory (fuel : nat) (start end_ : Z)
  (bytes : list byte) (w w1 : world) (t : Z) (mem : Z -> byte) :
  0 <= start -> start <= end_ -> end_ < modulus ->
  let n := end_ - start in
  malloc E (trace w) n = true ->
  get_kernel_task (log (EvMalloc n true) w) = (TaskOk t, w1) ->
  reads_memory t mem start end_ ->
  bytes <> [] ->
  let range := mem_bytes mem start (Z.to_nat n) in
  let turns := Z.to_nat ((n + MAX_CHUNK_SIZE - 1) / MAX_CHUNK_SIZE) in
  (forall k : nat,
      occurs_at range bytes k ->
      (forall j, (j < k)%nat -> ~ occurs_at range bytes j) ->
      exists w',
        find_bytes_kern (turns + fuel) start end_ bytes w
        = Some (start + Z.of_nat k, w'))
  /\ ((forall k, ~ occurs_at range bytes k) ->
      exists w',
        find_bytes_kern (turns + fuel) start end_ bytes w = Some (0, w')).
Proof.
  intros Hs Hse He n Hm Hg Hmem Hne range turns.
  assert (Hn : wrap (end_ - start) = n) by (apply wrap_small; lia).
  assert (Hmem' : reads_memory t mem start (start + n))
    by (replace (start + n) with end_ by lia; exact Hmem).
  destruct (read_kernel_fills_buffer fuel start n
              (fresh_bytes E (trace w) 0 n) (log (EvMalloc n true) w) w1 t mem
              Hg Hs ltac:(lia) ltac:(lia) Hmem'
              ltac:(rewrite fresh_bytes_length; lia)) as [w2 Hr].
  cbv zeta in Hr. fold turns in Hr.
  rewrite skipn_all2, app_nil_r in Hr by (rewrite fresh_bytes_length; lia).
  fold range in Hr.
  assert (Hm' : malloc E (trace w) (wrap (end_ - start)) = true)
    by (rewrite Hn; exact Hm).
  pose proof (find_bytes_kern_after_read (turns + fuel) start end_ bytes w w2
                n range Hm') as Hf.
  cbv zeta in Hf. rewrite Hn in Hf. destruct (Hf Hr) as [Hl Hres].
  split.
  - intros k Ho Hmin. exists (log EvFree w2). rewrite Hres.
    destruct (n =? 0) eqn:Hz.
    + exfalso. apply Z.eqb_eq in Hz. destruct Ho as [Hk [post Hp]].
      rewrite Hl, Hz in Hk. cbn in Hk. assert (k = 0%nat) by lia. subst k.
      destruct range; [|cbn in Hl; rewrite Hz in Hl; discriminate].
      cbn in Hp. destruct bytes; [contradiction | discriminate].
    + rewrite (memmem_least range bytes k (or_introl Hne) Ho Hmin).
      do 2 f_equal. apply wrap_small.
      destruct Ho as [Hk _]. rewrite Hl in Hk. lia.
  - intros Hno. exists (log EvFree w2). rewrite Hres.
    destruct (n =? 0); [reflexivity|].
    now rewrite (memmem_absent range bytes (or_introl Hne) Hno).
Qed.

Lemma get_kernel_task_trace (w w' : world) (r : task_result) :
  get_kernel_task w = (r, w') ->
  exists evs : list event,
    trace w' = trace w ++ evs /\ Forall (fun e => is_alloc e = false) evs.
Proof.
  destruct (task_initialized w) eqn:Hi.
  - rewrite get_kernel_task_cached by assumption. intros [= <- <-].
    exists []. rewrite app_nil_r. split; [reflexivity | constructor].
  - rewrite get_kernel_task_uncached by assumption. cbv zeta.
    destruct (fst (try_task_for_pid w) =? KERN_SUCCESS).
    + intros [= <- <-]. eexists. split; [reflexivity|].
      repeat constructor.
    + destruct (fst (try_special_port _) =? KERN_SUCCESS);
        intros [= <- <-];
        cbn [try_special_port try_task_for_pid snd trace log
             set_task_initialized set_kernel_task];
        rewrite <- app_assoc; eexists; (split; [reflexivity|]);
        repeat constructor.
Qed.

Lemma read_chunks_trace (fuel : nat) (t end_ : Z) (s s' : rd_state) :
  read_chunks fuel t end_ s = Some s' ->
  exists evs : list event,
    trace (rd_world s') = trace (rd_world s) ++ evs
    /\ Forall (fun e => is_alloc e = false) evs.
Proof.
  revert s. induction fuel as [|f IH]; intros s; cbn [read_chunks];
    destruct (read_chunk t end_ s) as [| s1 | s1] eqn:Hc;
    try discriminate;
    try (intros [= <-]; exists []; rewrite app_nil_r;
         split; [reflexivity | constructor]);
    try (intros [= <-]; apply read_chunk_break_inv in Hc;
         destruct Hc as (_ & _ & _ & ->); eexists;
         split; [reflexivity | repeat constructor]).
  intros H. apply IH in H. destruct H as (evs & Ht & Hf).
  apply read_chunk_again in Hc. destruct Hc as (_ & _ & _ & ->).
  cbn [rd_world log trace] in Ht. rewrite <- app_assoc in Ht.
  eexists. split; [exact Ht|]. constructor; [reflexivity | exact Hf].
Qed.

(** X13. [find_bytes_kern] asks for one buffer and gives it back: a call that
    returns has made, after the [malloc] that succeeded, calls that
    neither allocate nor free and then exactly one [free], its last call;
    when [malloc] failed it has made no other call, and no [free]. *)
Theorem find_bytes_kern_frees_its_buffer (fuel : nat) (start end_ : Z)
  (bytes : list byte) (w w' : world) (a : Z) :
  find_bytes_kern fuel start end_ bytes w = Some (a, w') ->
  let n := wrap (end_ - start) in
  (malloc E (trace w) n = false /\ a = 0
   /\ trace w' = trace w ++ [EvMalloc n false])
  \/ (malloc E (trace w) n = true
      /\ exists mid : list event,
          trace w' = trace w ++ EvMalloc n true :: mid ++ [EvFree]
          /\ Forall (fun e => is_alloc e = false) mid).
Proof.
  intros H n. unfold find_bytes_kern in H. fold n in H.
  destruct (malloc E (trace w) n) eqn:Hm.
  - right. split; [reflexivity|].
    destruct (read_kernel _ _ _ _ _) as [[[got buf'] w2]|] eqn:Hr;
      [|discriminate].
    injection H as _ <-. unfold read_kernel in Hr.
    destruct (get_kernel_task (log (EvMalloc n true) w)) as [[t|ret] w1]
      eqn:Hg; apply get_kernel_task_trace in Hg;
      destruct Hg as (evs1 & Ht1 & Hf1); cbn [log trace] in Ht1.
    + destruct (read_chunks _ _ _ _) as [s'|] eqn:Hrun; [|discriminate].
      injection Hr as _ _ <-. apply read_chunks_trace in Hrun.
      destruct Hrun as (evs2 & Ht2 & Hf2). cbn [rd_start rd_world] in Ht2.
      exists (evs1 ++ evs2). split.
      * cbn [log trace]. rewrite Ht2, Ht1, <- !app_assoc. reflexivity.
      * apply Forall_app. split; assumption.
    + injection Hr as _ _ <-. exists evs1. split; [|exact Hf1].
      cbn [log trace]. rewrite Ht1, <- !app_assoc. reflexivity.
  - left. injection H as <- <-. repeat split; reflexivity.
Qed.

(** ** find_bytes_kern: the result, when the kernel task is there *)

Lemma read_chunks_returns (t end_ : Z) (n : nat) :
  reads_bounded ->
  end_ < modulus ->
  forall s : rd_state,
    0 <= rd_addr s -> 0 <= rd_remainder s ->
    rd_addr s + rd_remainder s = end_ ->
    (Z.to_nat (rd_remainder s) <= n)%nat ->
    exists s' : rd_state, read_chunks n t end_ s = Some s'.
Proof.
  intros Hreq Hend. induction n as [|n IH]; intros s Ha Hrem Hsum Hn;
    cbn [read_chunks];
    destruct (read_chunk t end_ s) as [| s1 | s1] eqn:Hc;
    try (eexists; reflexivity).
  - apply read_chunk_again in Hc. destruct Hc as (Hlt & _). lia.
  - apply read_chunk_again in Hc. cbv zeta in Hc.
    destruct Hc as (Hlt & Hr & Ho & ->).
    set (c := chunk_size (rd_remainder s)) in *.
    set (out := wrap (ro_size (vm_read_overwrite E (trace (rd_world s)) t
                                 (rd_addr s) c))) in *.
    assert (Hout : 0 <= out < modulus) by apply wrap_range.
    assert (Hpos : 0 < rd_remainder s) by lia.
    destruct (chunk_size_bounds _ Hpos) as [[Hc1 _] Hc2]. fold c in Hc1, Hc2.
    assert (Hle : out <= c) by (apply Hreq; [lia | exact Hr]).
    apply IH; cbn [rd_addr rd_remainder];
      rewrite ?wrap_small by lia; lia.
Qed.

Lemma read_kernel_returns (fuel : nat) (addr size : Z)
  (buf : list byte) (w : world) :
  reads_bounded ->
  0 <= addr < modulus -> 0 <= size < modulus ->
  exists r, read_kernel (Z.to_nat size + fuel) addr size buf w = Some r.
Proof.
  intros Hreq Ha Hs. unfold read_kernel.
  destruct (get_kernel_task w) as [[t|ret] w1]; [|eexists; reflexivity].
  destruct (Z_lt_le_dec (addr + size) modulus) as [Hlt|Hge].
  - rewrite (wrap_small (addr + size)) by lia.
    destruct (read_chunks_returns t (addr + size)
                (Z.to_nat size + fuel) Hreq Hlt (rd_start addr size buf w1))
      as [s' Hs'];
      cbn [rd_start rd_addr rd_remainder]; try lia.
    rewrite Hs'. eexists; reflexivity.
  - assert (Hw : wrap (addr + size) = addr + size - modulus).
    { unfold wrap. symmetry. apply Z.mod_unique with (q := 1); lia. }
    assert (Hx : read_chunk t (wrap (addr + size)) (rd_start addr size buf w1)
                 = RdExit).
    { unfold read_chunk. cbn [rd_start rd_addr].
      assert (Hf : (addr <? wrap (addr + size)) = false)
        by (apply Z.ltb_ge; lia).
      now rewrite Hf. }
    destruct (Z.to_nat size + fuel)%nat; cbn [read_chunks]; rewrite Hx;
      eexists; reflexivity.
Qed.

(** With the task at hand, the count [read_kernel] returns is what its
    reads moved. *)
Lemma read_kernel_count (fuel : nat) (addr size : Z) (buf buf' : list byte)
  (w w1 w' : world) (t n : Z) :
  reads_bounded ->
  0 <= addr -> 0 <= size -> addr + size < modulus ->
  get_kernel_task w = (TaskOk t, w1) ->
  read_kernel fuel addr size buf w = Some (n, buf', w') ->
  exists evs : list event,
    trace w' = trace w1 ++ evs /\ n = total_moved evs.
Proof.
  intros Hreq Ha Hs Hlt Hg H.
  unfold read_kernel in H. rewrite Hg in H.
  destruct (read_chunks _ _ _ _) as [s'|] eqn:Hrun; [|discriminate].
  injection H as <- <- <-.
  rewrite (wrap_small (addr + size)) in Hrun by lia.
  assert (Hsz : size < modulus) by lia.
  destruct (read_chunks_run t addr (addr + size) size Hreq Hlt
              Hsz fuel (rd_start addr size buf w1) s')
    as (evs & Ht & _ & Hb & _);
    cbn [rd_start rd_addr rd_remainder rd_bytes_read]; try lia;
    [exact Hrun|].
  exists evs. cbn [rd_start rd_bytes_read rd_world] in *.
  split; [exact Ht | lia].
Qed.

(** C9, as the code has it.  [find_bytes_kern start end_ bytes] returns 0
    when [malloc] fails.  When the buffer is there and the kernel task is had,
    [read_kernel] returns the number of bytes its reads moved; if that is
    0 the result is 0.  Otherwise the buffer of [end_ - start] bytes is
    searched as the read left it.  For a pattern that is not empty the
    result is [start + k] for the first offset [k] at which the pattern
    lies in the buffer (as a machine word, and exactly so when
    [start <= end_]), and 0 when it lies nowhere in it.  For the empty
    pattern the result is what [memmem] makes of it: [start] where
    [memmem] answers the buffer, 0 where it answers [NULL].  The call
    returns, with fuel for one turn per byte, when no read reports more
    than it was asked for.  Calls in which the task cannot be had are not
    covered. *)
Theorem find_bytes_kern_with_the_task (fuel : nat) (start end_ : Z)
  (bytes : list byte) (w : world) :
  let n := wrap (end_ - start) in
  let w0 := log (EvMalloc n true) w in
  let buf := fresh_bytes E (trace w) 0 n in
  (malloc E (trace w) n = false ->
   find_bytes_kern fuel start end_ bytes w = Some (0, log (EvMalloc n false) w))
  /\ (forall (t got : Z) (buf' : list byte) (w1 w2 : world),
         malloc E (trace w) n = true ->
         get_kernel_task w0 = (TaskOk t, w1) ->
         read_kernel fuel start n buf w0 = Some (got, buf', w2) ->
         length buf' = Z.to_nat n
         /\ (reads_bounded -> 0 <= start <= end_ -> end_ < modulus ->
             exists evs : list event,
               trace w2 = trace w1 ++ evs /\ got = total_moved evs)
         /\ (got = 0 ->
             find_bytes_kern fuel start end_ bytes w
             = Some (0, log EvFree w2))
         /\ (got <> 0 -> bytes <> [] ->
             forall k : nat,
               occurs_at buf' bytes k ->
               (forall j, (j < k)%nat -> ~ occurs_at buf' bytes j) ->
               find_bytes_kern fuel start end_ bytes w
               = Some (wrap (start + Z.of_nat k), log EvFree w2)
               /\ (0 <= start <= end_ -> end_ < modulus ->
                   wrap (start + Z.of_nat k) = start + Z.of_nat k))
         /\ (got <> 0 -> bytes <> [] ->
             (forall k, ~ occurs_at buf' bytes k) ->
             find_bytes_kern fuel start end_ bytes w
             = Some (0, log EvFree w2))
         /\ (got <> 0 -> bytes = [] ->
             find_bytes_kern fuel start end_ bytes w
             = Some ((if memmem_empty A then wrap start else 0),
                     log EvFree w2)))
  /\ (forall (t : Z) (w1 : world),
         malloc E (trace w) n = true ->
         get_kernel_task w0 = (TaskOk t, w1) ->
         reads_bounded -> 0 <= start < modulus ->
         exists r,
           find_bytes_kern (Z.to_nat n + fuel) start end_ bytes w = Some r).
Proof.
  intros n w0 buf. split; [|split].
  - intros Hm. unfold find_bytes_kern. fold n. now rewrite Hm.
  - intros t got buf' w1 w2 Hm Hg Hr.
    destruct (find_bytes_kern_after_read fuel start end_ bytes w w2 got buf'
                Hm Hr) as [Hl Hf].
    fold n in Hl. split; [exact Hl|]. split; [|split; [|split; [|split]]].
    + intros Hreq Hse He.
      assert (Hn : n = end_ - start) by (apply wrap_small; lia).
      apply (read_kernel_count fuel start n buf buf' w0 w1 w2 t got Hreq);
        try assumption; lia.
    + intros ->. exact Hf.
    + intros Hz Hne k Ho Hmin. apply Z.eqb_neq in Hz. rewrite Hz in Hf.
      rewrite (memmem_least buf' bytes k (or_introl Hne) Ho Hmin) in Hf.
      split; [exact Hf|].
      intros Hse He. apply wrap_small.
      destruct Ho as [Hk _]. rewrite Hl in Hk.
      assert (Hn : n = end_ - start) by (apply wrap_small; lia).
      rewrite Hn in Hk. lia.
    + intros Hz Hne Hno. apply Z.eqb_neq in Hz. rewrite Hz in Hf.
      now rewrite (memmem_absent buf' bytes (or_introl Hne) Hno) in Hf.
    + intros Hz ->. apply Z.eqb_neq in Hz. rewrite Hz in Hf.
      rewrite Hf. unfold memmem.
      destruct (memmem_empty A); [|reflexivity].
      cbn [Z.of_nat]. rewrite Z.add_0_r. reflexivity.
  - intros t w1 Hm _ Hreq Hs. unfold find_bytes_kern. fold n.
    rewrite Hm.
    destruct (read_kernel_returns fuel start n
                (fresh_bytes E (trace w) 0 n) (log (EvMalloc n true) w)
                Hreq Hs (wrap_range _)) as [[[got buf'] w2] Hr].
    rewrite Hr. eexists; reflexivity.
Qed.

End Libkern.

(** * Concrete runs *)

Lemma acquisition_attempts_follow_the_table_witness :
  let run k := fst (get_kernel_task (sim_env k) fresh_world) in
  task_initialized fresh_world = false
  /\ run sim_second = TaskOk 0x1203
  /\ run sim_trusted = TaskOk 0x1203
  /\ run sim_port4 = TaskOk 0x0e03
  /\ run sim_fallback = TaskOk 0x0e03
  /\ run sim_hollow = TaskFail KERN_FAILURE
  /\ run sim_refused = TaskFail KERN_NO_ACCESS.
Proof.
  intros run.
  assert (Hi : task_initialized fresh_world = false) by reflexivity.
  split; [exact Hi|].
  split; [|split; [|split; [|split; [|split]]]].
  - destruct (acquisition_attempts_follow_the_table (sim_env sim_second)
                fresh_world Hi) as (H & _).
    destruct H as (_ & w' & H & _); [reflexivity | reflexivity |].
    unfold run. rewrite H. reflexivity.
  - destruct (acquisition_attempts_follow_the_table (sim_env sim_trusted)
                fresh_world Hi) as (_ & H & _).
    destruct H as (_ & w' & H & _); [reflexivity | discriminate |].
    unfold run. rewrite H. reflexivity.
  - destruct (acquisition_attempts_follow_the_table (sim_env sim_port4)
                fresh_world Hi) as (_ & _ & _ & _ & H).
    destruct (H eq_refl) as (H1 & _).
    destruct H1 as (_ & w' & H1 & _); [reflexivity | reflexivity |].
    unfold run. rewrite H1. reflexivity.
  - destruct (acquisition_attempts_follow_the_table (sim_env sim_fallback)
                fresh_world Hi) as (_ & _ & _ & _ & H).
    destruct (H eq_refl) as (_ & H1 & _).
    destruct H1 as (_ & w' & H1 & _); [reflexivity | discriminate |].
    unfold run. rewrite H1. reflexivity.
  - destruct (acquisition_attempts_follow_the_table (sim_env sim_hollow)
                fresh_world Hi) as (_ & _ & _ & _ & H).
    destruct (H eq_refl) as (_ & _ & H1 & _).
    destruct H1 as (_ & w' & H1 & _); [reflexivity | reflexivity |].
    unfold run. rewrite H1. reflexivity.
  - destruct (acquisition_attempts_follow_the_table (sim_env sim_refused)
                fresh_world Hi) as (_ & _ & _ & _ & H).
    destruct (H eq_refl) as (_ & _ & _ & H1).
    destruct H1 as (_ & w' & H1 & _); [reflexivity | discriminate |].
    unfold run. rewrite H1. reflexivity.
Defined.

Lemma locator_accepts_the_single_match_witness :
  option_map fst (get_kernel_base arm64 (sim_env sim_second) 1 fresh_world)
  = Some (kbase64 + 0x4000).
Proof.
  edestruct (locator_accepts_the_single_match
               arm64 (sim_env sim_second) 1 0 fresh_world) as (H & _ & _).
  - reflexivity.
  - lazy; reflexivity.
  - lazy; reflexivity.
  - lazy; reflexivity.
  - lazy; reflexivity.
  - cbn [Nat.add] in H. rewrite H.
    + reflexivity.
    + vm_compute. discriminate.
    + reflexivity.
Defined.

Lemma locator_refuses_two_full_matches_witness :
  option_map fst (get_kernel_base arm64 (sim_env sim_both) 1 fresh_world)
  = Some 0.
Proof.
  edestruct (locator_refuses_two_full_matches
               arm64 (sim_env sim_both) 1 0 fresh_world) as (H & _).
  - reflexivity.
  - lazy; reflexivity.
  - lazy; reflexivity.
  - lazy; reflexivity.
  - lazy; reflexivity.
  - reflexivity.
  - reflexivity.
  - reflexivity.
  - reflexivity.
  - reflexivity.
  - reflexivity.
  - cbn [Nat.add] in H. rewrite H. reflexivity.
Defined.

Lemma locator_retries_one_stride_further_witness :
  option_map fst (get_kernel_base arm64 (sim_env sim_stride) 2 fresh_world)
  = Some (kbase64 + 0x100000 + 0x4000).
Proof.
  edestruct (locator_retries_one_stride_further
               arm64 (sim_env sim_stride) 1 0 fresh_world)
    as (_ & _ & _ & H).
  - reflexivity.
  - lazy; reflexivity.
  - lazy; reflexivity.
  - lazy; reflexivity.
  - lazy; reflexivity.
  - vm_compute. discriminate.
  - vm_compute. discriminate.
  - edestruct H as (H1 & _).
    + lazy; reflexivity.
    + reflexivity.
    + cbn [Nat.add] in H1. rewrite H1. reflexivity.
Defined.

Lemma sim_bytes_all (b : byte) (n : nat) (a : Z) :
  sim_bytes (fun _ => Some b) a n = Some (repeat b n).
Proof.
  revert a. induction n as [|n IH]; intros a; cbn [sim_bytes repeat].
  - reflexivity.
  - now rewrite IH.
Qed.





Lemma partial_transfer_returns_bytes_so_far_witness :
  option_map (fun r => fst (fst r))
    (read_kernel arm64 (sim_env sim_second) 1 (kbase64 + 0x1FF000) 0x2000 []
                 fresh_world)
  = Some 0xFFF
  /\ option_map fst
       (write_kernel arm64 (sim_env sim_second) 1 (kbase64 + 0x1FF000) []
                     0x2000 fresh_world)
     = Some 0xFFF.
Proof.
  destruct (partial_transfer_returns_bytes_so_far arm64 (sim_env sim_second))
    as [Hr Hw].
  split.
  - edestruct (Hr 1%nat 0%nat (kbase64 + 0x1FF000) 0x2000 [] fresh_world)
      as (evs & Ht & _ & H & _).
    + reflexivity.
    + lazy; reflexivity.
    + reflexivity.
    + left. vm_compute. discriminate.
    + cbn [Nat.add] in H. rewrite H.
      vm_compute in Ht. injection Ht as <-. reflexivity.
  - edestruct (Hw 1%nat 0%nat (kbase64 + 0x1FF000) [] 0x2000 fresh_world)
      as (evs & Ht & _ & H & _).
    + reflexivity.
    + lazy; reflexivity.
    + reflexivity.
    + vm_compute. discriminate.
    + cbn [Nat.add] in H. rewrite H.
      vm_compute in Ht. injection Ht as <-. reflexivity.
Defined.

Lemma acquisition_failure_sentinel_witness :
  read_kernel arm64 (sim_env sim_denied) 0 kbase64 16 [] fresh_world
  = Some (0xFFFFFFFFFFFFFFFF, [],
          snd (get_kernel_task (sim_env sim_denied) fresh_world))
  /\ write_kernel arm64 (sim_env sim_denied) 0 kbase64 [] 16 fresh_world
     = Some (0xFFFFFFFFFFFFFFFF,
             snd (get_kernel_task (sim_env sim_denied) fresh_world))
  /\ 0xFFFFFFFFFFFFFFFF <> 0.
Proof.
  destruct (acquisition_failure_sentinel arm64 (sim_env sim_denied) 0
              fresh_world
              (snd (get_kernel_task (sim_env sim_denied) fresh_world))
              KERN_FAILURE eq_refl) as (Hr & Hw & Hz).
  split; [apply Hr|]. split; [apply Hw | exact Hz].
Defined.

Lemma cached_results_are_stable_witness :
  let E := sim_env sim_second in
  let wa := snd (get_kernel_task E fresh_world) in
  let wb := world_of (get_kernel_base arm64 E 1 wa) in
  let wc := world_of (read_kernel arm64 E 1 kbase64 16 [] wb) in
  let wd := world_of (write_kernel arm64 E 1 kbase64 [] 16 wc) in
  get_kernel_task E wd = (TaskOk 0x1203, wd)
  /\ get_kernel_base arm64 E 0 wd = Some (kbase64 + 0x4000, wd)
  /\ length (trace wb) = 5%nat /\ length (trace wd) = 7%nat.
Proof.
  intros E wa wb wc wd.
  destruct (cached_results_are_stable arm64 E) as [Ht Hb].
  assert (H1 : get_kernel_base arm64 E 1 wa = Some (kbase64 + 0x4000, wb))
    by (vm_compute; reflexivity).
  assert (Hreach : api_reach arm64 E wb wd).
  { apply reach_step with (w1 := wc).
    - apply (step_read_kernel arm64 E 1 kbase64 16 [] wb 16 [] wc).
      vm_compute; reflexivity.
    - apply reach_step with (w1 := wd); [|apply reach_here].
      apply (step_write_kernel arm64 E 1 kbase64 [] 16 wc 16 wd).
      vm_compute; reflexivity. }
  split; [|split; [|split]].
  - apply (Ht fresh_world wa 0x1203).
    + vm_compute; reflexivity.
    + apply reach_step with (w1 := wb); [|exact Hreach].
      apply (step_get_kernel_base arm64 E 1 wa (kbase64 + 0x4000) wb H1).
  - apply (Hb 1%nat wa wb (kbase64 + 0x4000) H1).
    + vm_compute. discriminate.
    + exact Hreach.
  - vm_compute; reflexivity.
  - vm_compute; reflexivity.
Defined.

Lemma find_bytes_kern_searches_unread_buffer_witness :
  option_map fst
    (find_bytes_kern arm64 (sim_env sim_denied) 0 0x1000 0x1008 [xbe; xef]
                     fresh_world)
  = Some 0x1003.
Proof.
  edestruct (find_bytes_kern_searches_unread_buffer arm64 (sim_env sim_denied)
               0 0x1000 0x1008 [xbe; xef] fresh_world) as (_ & _ & H).
  - reflexivity.
  - lazy; reflexivity.
  - rewrite H. reflexivity.
Defined.

(** * Concrete runs of the further properties *)

Lemma get_kernel_task_attempts_witness :
  (exists w',
      get_kernel_task (sim_env sim_second) fresh_world = (TaskOk 0x1203, w')
      /\ trace w' = [EvTaskForPid 0 0x1203 KERN_SUCCESS])
  /\ (exists w',
         get_kernel_task (sim_env sim_fallback) fresh_world
         = (TaskOk 0x0e03, w')
         /\ trace w' = [EvTaskForPid 0 0 KERN_FAILURE;
                        EvHostGetSpecialPort HOST_LOCAL_NODE 4 0x0e03
                                             KERN_FAILURE])
  /\ (exists w',
         get_kernel_task (sim_env sim_denied) fresh_world
         = (TaskFail KERN_FAILURE, w')
         /\ task_initialized w' = false).
Proof.
  split; [|split].
  - destruct (get_kernel_task_attempts (sim_env sim_second) fresh_world
                eq_refl) as (H & _ & _).
    destruct (H eq_refl) as (w' & Hg & Ht & _).
    exists w'. split; [exact Hg | exact Ht].
  - destruct (get_kernel_task_attempts (sim_env sim_fallback) fresh_world
                eq_refl) as (_ & H & _).
    destruct (H eq_refl eq_refl) as (w' & Hg & Ht & _).
    exists w'. split; [exact Hg | exact Ht].
  - destruct (get_kernel_task_attempts (sim_env sim_denied) fresh_world
                eq_refl) as (_ & _ & H).
    destruct (H eq_refl eq_refl) as (w' & Hg & _ & Hi).
    exists w'. split; [exact Hg | exact Hi].
Defined.

Lemma reachable_caches_consistent_witness :
  let E := sim_env sim_second in
  let wa := world_of (get_kernel_base arm64 E 1 fresh_world) in
  let wb := world_of (read_kernel arm64 E 1 kbase64 16 [] wa) in
  caches_consistent wb
  /\ (forall t w'', get_kernel_task E wb = (TaskOk t, w'') ->
                    MACH_PORT_VALID t = true).
Proof.
  intros E wa wb.
  apply (reachable_caches_consistent arm64 E fresh_world wb).
  - split; discriminate.
  - apply reach_step with (w1 := wa).
    + apply (step_get_kernel_base arm64 E 1 fresh_world (kbase64 + 0x4000) wa).
      vm_compute; reflexivity.
    + apply reach_step with (w1 := wb); [|apply reach_here].
      apply (step_read_kernel arm64 E 1 kbase64 16 [] wa 16 [] wb).
      vm_compute; reflexivity.
Defined.

Lemma get_kernel_base_gives_up_witness :
  option_map fst (get_kernel_base arm64 (sim_env sim_denied) 0 fresh_world)
  = Some 0
  /\ option_map fst (get_kernel_base arm64 (sim_env sim_nomatch) 1 fresh_world)
     = Some 0.
Proof.
  split.
  - destruct (get_kernel_base_gives_up arm64 (sim_env sim_denied) 0
                fresh_world eq_refl) as [H _].
    edestruct H as [Hr _].
    + lazy; reflexivity.
    + rewrite Hr. reflexivity.
  - destruct (get_kernel_base_gives_up arm64 (sim_env sim_nomatch) 0
                fresh_world eq_refl) as [_ H].
    edestruct (H 1%nat) as [Hr _].
    + lazy; reflexivity.
    + lazy; reflexivity.
    + lazy; reflexivity.
    + cbn [Nat.add] in Hr. rewrite Hr. reflexivity.
Defined.

Lemma header_read_failures_witness :
  option_map fst
    (get_kernel_base arm64 (sim_env sim_unreadable) 1 fresh_world) = Some 0
  /\ option_map fst
       (get_kernel_base arm64 (sim_env sim_first_only) 1 fresh_world)
     = Some (kbase64 + 0x2000).
Proof.
  split.
  - edestruct (header_read_failures arm64 (sim_env sim_unreadable) 1 0
                 fresh_world) as [H _].
    + reflexivity.
    + lazy; reflexivity.
    + lazy; reflexivity.
    + lazy; reflexivity.
    + edestruct H as [Hr _].
      * lazy; reflexivity.
      * vm_compute. discriminate.
      * cbn [Nat.add] in Hr. rewrite Hr. reflexivity.
  - edestruct (header_read_failures arm64 (sim_env sim_first_only) 1 0
                 fresh_world) as [_ H].
    + reflexivity.
    + lazy; reflexivity.
    + lazy; reflexivity.
    + lazy; reflexivity.
    + edestruct H as [Hr _].
      * lazy; reflexivity.
      * lazy; reflexivity.
      * vm_compute. discriminate.
      * cbn [Nat.add] in Hr. rewrite Hr; reflexivity.
Defined.

Lemma two_magics_are_told_apart_witness :
  option_map fst
    (get_kernel_base arm64 (sim_env sim_dylib_first) 1 fresh_world)
  = Some (kbase64 + 0x4000).
Proof.
  edestruct (two_magics_are_told_apart arm64 (sim_env sim_dylib_first) 1 0
               fresh_world) as (_ & H & _).
  - reflexivity.
  - lazy; reflexivity.
  - lazy; reflexivity.
  - lazy; reflexivity.
  - lazy; reflexivity.
  - reflexivity.
  - reflexivity.
  - cbn [Nat.add] in H. rewrite H; reflexivity.
Defined.

Lemma stale_addr_is_ignored_witness :
  get_kernel_base arm64 (sim_env sim_second) 1 (set_addr 0x1234 fresh_world)
  = get_kernel_base arm64 (sim_env sim_second) 1 fresh_world.
Proof.
  apply (stale_addr_is_ignored arm64 (sim_env sim_second) 1 0x1234 0x1203
           fresh_world (snd (get_kernel_task (sim_env sim_second) fresh_world))).
  - reflexivity.
  - reflexivity.
Defined.

Lemma nonzero_base_was_read_with_magic_witness :
  let E := sim_env sim_second in
  let w' := world_of (get_kernel_base arm64 E 1 fresh_world) in
  base_cache w' = (kbase64 + 0x4000, true)
  /\ exists (t : Z) (h : list event) (old : list byte) (rest : list event),
      let r := vm_read_overwrite E h t (kbase64 + 0x4000) 32 in
      length old = 32%nat
      /\ ro_ret r = KERN_SUCCESS
      /\ le32 0 (store old 0 (ro_data r)) = 0xfeedfacf
      /\ trace w' = h ++ EvRead t (kbase64 + 0x4000) 32 KERN_SUCCESS
                                (ro_size r mod 2 ^ 64) :: rest.
Proof.
  intros E w'.
  apply (nonzero_base_was_read_with_magic arm64 E 1 fresh_world w'
           (kbase64 + 0x4000)).
  - reflexivity.
  - vm_compute; reflexivity.
  - vm_compute. discriminate.
Defined.

Lemma store_whole (old d : list byte) :
  length old = length d -> store old 0 d = d.
Proof.
  intros H. rewrite store_fits by lia. cbn [firstn app Nat.add].
  rewrite skipn_all2 by lia. apply app_nil_r.
Qed.

Lemma header_loop_has_no_bound_witness :
  get_kernel_base arm64 (sim_env sim_all) (1 + 6) fresh_world = None.
Proof.
  eapply (header_loop_has_no_bound arm64 (sim_env sim_all) 1 fresh_world).
  - reflexivity.
  - lazy; reflexivity.
  - lazy; reflexivity.
  - lazy; reflexivity.
  - intros h a old Hl. cbv zeta.
    cbn [vm_read_overwrite sim_env sim_all sim_mem sizeof_mach_hdr arm64].
    unfold sim_read. rewrite sim_bytes_all. cbn [ro_ret ro_data].
    split; [reflexivity|].
    rewrite store_whole by (rewrite Hl; reflexivity).
    vm_compute. discriminate.
Defined.

Lemma sim_reads_bounded (A : arch) (k : sim) : reads_bounded A (sim_env k).
Proof.
  intros h t a c Hc. cbn [vm_read_overwrite sim_env]. unfold sim_read.
  destruct (sim_bytes (sim_mem k) a (Z.to_nat c)); cbn [ro_ret ro_size].
  - intros _. unfold wrap. apply Z.mod_le; [exact Hc|].
    pose proof (modulus_gt_1 A). lia.
  - discriminate.
Qed.

Lemma transfers_stay_in_range_witness :
  let E := sim_env sim_second in
  let addr := kbase64 + 0x1FF000 in
  let w1 := snd (get_kernel_task E fresh_world) in
  (exists evs : list event,
      trace (world_of (read_kernel arm64 E 1 addr 0x2000 [] fresh_world))
      = trace w1 ++ evs
      /\ Forall (inside addr (addr + 0x2000)) evs)
  /\ (exists evs : list event,
         trace (world_of (write_kernel arm64 E 1 addr [] 0x2000 fresh_world))
         = trace w1 ++ evs
         /\ Forall (inside addr (addr + 0x2000)) evs).
Proof.
  intros E addr w1.
  destruct (transfers_stay_in_range arm64 E) as [Hr Hw].
  split.
  - apply (Hr 1%nat addr 0x2000 [] [] fresh_world w1 _ 0x1203 0xFFF).
    + apply sim_reads_bounded.
    + vm_compute. split; discriminate || reflexivity.
    + vm_compute. split; discriminate || reflexivity.
    + reflexivity.
    + vm_compute; reflexivity.
  - apply (Hw 1%nat addr [] 0x2000 fresh_world w1 _ 0x1203 0xFFF).
    + vm_compute. split; discriminate || reflexivity.
    + vm_compute. split; discriminate || reflexivity.
    + reflexivity.
    + vm_compute; reflexivity.
Defined.


Lemma sim_bytes_total (m : Z -> byte) (n : nat) (a : Z) :
  sim_bytes (fun x => Some (m x)) a n = Some (mem_bytes m a n).
Proof.
  revert a. induction n as [|n IH]; intros a.
  - reflexivity.
  - cbn [sim_bytes]. rewrite IH, mem_bytes_succ. reflexivity.
Qed.

Lemma sim_marked_reads (t lo hi : Z) :
  reads_memory (sim_env sim_marked) t marked lo hi.
Proof.
  intros h a c _ _ _. cbn [vm_read_overwrite sim_env sim_marked sim_mem].
  unfold sim_read. now rewrite sim_bytes_total.
Qed.

Lemma read_kernel_copies_memory_witness :
  exists w' : world,
    read_kernel arm64 (sim_env sim_marked) 1 (kbase64 + 0x1000) 8
                [xaa; xaa; xaa; xaa; xaa; xaa; xaa; xaa; xff] fresh_world
    = Some (8, [x00; x00; x00; xbe; xef; x00; x00; x00; xff], w').
Proof.
  destruct (read_kernel_copies_memory arm64 (sim_env sim_marked) 0
              (kbase64 + 0x1000) 8
              [xaa; xaa; xaa; xaa; xaa; xaa; xaa; xaa; xff] fresh_world
              (snd (get_kernel_task (sim_env sim_marked) fresh_world))
              0x1203 marked) as [w' H].
  - reflexivity.
  - vm_compute. discriminate.
  - vm_compute. discriminate.
  - vm_compute. reflexivity.
  - apply sim_marked_reads.
  - vm_compute. lia.
  - exists w'. exact H.
Defined.

Lemma find_bytes_kern_finds_first_in_memory_witness :
  exists w' : world,
    find_bytes_kern arm64 (sim_env sim_marked) 1
                    (kbase64 + 0x1000) (kbase64 + 0x1008) [xbe; xef]
                    fresh_world
    = Some (kbase64 + 0x1003, w').
Proof.
  edestruct (find_bytes_kern_finds_first_in_memory arm64 (sim_env sim_marked)
               0 (kbase64 + 0x1000) (kbase64 + 0x1008) [xbe; xef]
               fresh_world) as [H _].
  - vm_compute. discriminate.
  - vm_compute. discriminate.
  - vm_compute. reflexivity.
  - reflexivity.
  - lazy; reflexivity.
  - apply sim_marked_reads.
  - discriminate.
  - destruct (H 3%nat) as [w' Hr].
    + split; [vm_compute; lia|]. eexists. vm_compute. reflexivity.
    + intros j Hj [_ [post Hp]].
      do 3 (destruct j as [|j]; [vm_compute in Hp; discriminate|]). lia.
    + exists w'. exact Hr.
Defined.

Lemma find_bytes_kern_frees_its_buffer_witness :
  let E := sim_env sim_second in
  let w' := world_of (find_bytes_kern arm64 E 1 (kbase64 + 0x3FFE)
                        (kbase64 + 0x4006) [xed; xfe] fresh_world) in
  (malloc E (trace fresh_world) 8 = false /\ kbase64 + 0x4002 = 0
   /\ trace w' = trace fresh_world ++ [EvMalloc 8 false])
  \/ (malloc E (trace fresh_world) 8 = true
      /\ exists mid : list event,
          trace w' = trace fresh_world ++ EvMalloc 8 true :: mid ++ [EvFree]
          /\ Forall (fun e => is_alloc e = false) mid).
Proof.
  intros E w'.
  apply (find_bytes_kern_frees_its_buffer arm64 E 1 (kbase64 + 0x3FFE)
           (kbase64 + 0x4006) [xed; xfe] fresh_world w' (kbase64 + 0x4002)).
  vm_compute; reflexivity.
Defined.

(** * Concrete runs of find_bytes_kern, with and without the task *)

Lemma find_bytes_kern_with_the_task_witness :
  option_map fst
    (find_bytes_kern arm64 (sim_env sim_second) 1
                     (kbase64 + 0x3FFE) (kbase64 + 0x4006) [xed; xfe]
                     fresh_world)
  = Some (kbase64 + 0x4002)
  /\ (exists r,
         find_bytes_kern arm64 (sim_env sim_second) 8
                         (kbase64 + 0x3FFE) (kbase64 + 0x4006) [xed; xfe]
                         fresh_world = Some r).
Proof.
  split.
  - destruct (find_bytes_kern_with_the_task arm64 (sim_env sim_second) 1
                (kbase64 + 0x3FFE) (kbase64 + 0x4006) [xed; xfe] fresh_world)
      as (_ & H & _).
    edestruct H as (_ & _ & _ & Hfound & _).
    + reflexivity.
    + lazy; reflexivity.
    + lazy; reflexivity.
    + edestruct (Hfound ltac:(discriminate) ltac:(discriminate) 4%nat)
        as [Hr _].
      * split; [cbn; lia|]. eexists. reflexivity.
      * intros j Hj [_ [post Hp]].
        do 4 (destruct j as [|j]; [cbn in Hp; discriminate|]). lia.
      * rewrite Hr. reflexivity.
  - destruct (find_bytes_kern_with_the_task arm64 (sim_env sim_second) 0
                (kbase64 + 0x3FFE) (kbase64 + 0x4006) [xed; xfe] fresh_world)
      as (_ & _ & H).
    edestruct H as [r Hr].
    + reflexivity.
    + lazy; reflexivity.
    + apply sim_reads_bounded.
    + vm_compute. split; [discriminate | reflexivity].
    + exists r. exact Hr.
Defined.

(** Two calls outside that statement.  With the task denied no byte
    is read, yet the stale bytes of the buffer are searched and an address
    comes back, not 0.  With the task granted and eight bytes read, the
    empty pattern lies at offset 0 of the buffer, and the result is 0,
    not [start]. *)
Lemma find_bytes_kern_without_the_task_or_a_pattern :
  (forall fuel : nat,
      let r := find_bytes_kern arm64 (sim_env sim_denied) fuel 0x1000 0x1008
                               [xbe; xef] fresh_world in
      option_map fst r = Some 0x1003
      /\ trace (world_of r)
         = [EvMalloc 8 true;
            EvTaskForPid 0 MACH_PORT_NULL KERN_FAILURE;
            EvHostGetSpecialPort HOST_LOCAL_NODE 4 MACH_PORT_NULL KERN_FAILURE;
            EvFree]
      /\ total_moved (trace (world_of r)) = 0)
  /\ ~ (exists (fuel : nat) (w' : world),
          find_bytes_kern arm64 (sim_env sim_denied) fuel 0x1000 0x1008
                          [xbe; xef] fresh_world = Some (0, w'))
  /\ (let start := kbase64 + 0x1000 in
      let rd := read_kernel arm64 (sim_env sim_marked) 1 start 8
                  (fresh_bytes (sim_env sim_marked) [] 0 8)
                  (log (EvMalloc 8 true) fresh_world) in
      let r := find_bytes_kern arm64 (sim_env sim_marked) 1 start (start + 8)
                               [] fresh_world in
      option_map (fun x => fst (fst x)) rd = Some 8
      /\ total_moved (trace (world_of rd)) = 8
      /\ (forall big : list byte,
             occurs_at big [] 0
             /\ forall j, (j < 0)%nat -> ~ occurs_at big [] j)
      /\ option_map fst r = Some 0
      /\ ~ (exists (fuel : nat) (w' : world),
              find_bytes_kern arm64 (sim_env sim_marked) fuel start
                              (start + 8) [] fresh_world
              = Some (start + 0, w'))).
Proof.
  split; [|split].
  - intros fuel. vm_compute. repeat split; reflexivity.
  - intros (fuel & w' & H). vm_compute in H. discriminate.
  - cbv zeta. split; [vm_compute; reflexivity|].
    split; [vm_compute; reflexivity|].
    split.
    { intros big. split; [|intros j Hj; lia].
      split; [cbn; lia | exists big; reflexivity]. }
    split; [vm_compute; reflexivity|].
    intros (fuel & w' & H).
    destruct fuel as [|[|f]]; vm_compute in H; discriminate.
Qed.
